(** * A shallow embedding of the [ringbuffer] package

    The Go package implements a growable circular byte buffer.  The
    embedding follows [ringbuffer.go] function by function.  Go's [int] is
    modelled as a [Z] with its two's-complement wrap-around written out, at
    the width of the target; byte slices are lists of [Byte.byte]; run-time
    panics (slice bounds, division by zero, negative [make]) are an explicit
    outcome; the receiver [*RingBuffer] is threaded through a small
    state-and-panic monad.  The mutex is not modelled: every method is
    executed atomically. *)

From Stdlib Require Import ZArith List Bool Lia.
From Stdlib.Strings Require Import Byte.
From Stdlib.Strings Require String.
Import ListNotations.
Local Open Scope Z_scope.

(** ** Machine integers *)

(** Go's [int] is 32 bits wide on 32-bit targets and 64 bits wide on 64-bit
    targets. *)
Inductive arch : Type := Arch32 | Arch64.

Definition int_bits (a : arch) : Z :=
  match a with Arch32 => 32 | Arch64 => 64 end.

Definition max_int (a : arch) : Z := 2 ^ (int_bits a - 1) - 1.
Definition min_int (a : arch) : Z := - 2 ^ (int_bits a - 1).

(** Signed wrap-around of a mathematical integer to the width of [int]. *)
Definition wrap (a : arch) (z : Z) : Z :=
  (z - min_int a) mod 2 ^ int_bits a + min_int a.

(** ** Outcomes and errors *)

Inductive outcome (A : Type) : Type :=
| Ret (x : A)
| Panic.
Arguments Ret {A} x.
Arguments Panic {A}.

(** The two error values a method can return: [io.EOF] and
    [errors.New("buffer overflow")]. *)
Inductive error : Type := EOF | ErrBufferOverflow.

Definition obind {A B : Type} (o : outcome A) (k : A -> outcome B) : outcome B :=
  match o with
  | Ret x => k x
  | Panic => Panic
  end.

(** ** Byte slices *)

Definition len (s : list byte) : Z := Z.of_nat (length s).

(** [s[lo:hi]]; every slice of the package has its capacity equal to its
    length. *)
Definition slice (s : list byte) (lo hi : Z) : outcome (list byte) :=
  if (0 <=? lo) && (lo <=? hi) && (hi <=? len s)
  then Ret (firstn (Z.to_nat (hi - lo)) (skipn (Z.to_nat lo) s))
  else Panic.

(** [s[lo:]] and [s[:hi]]. *)
Definition slice_from (s : list byte) (lo : Z) : outcome (list byte) :=
  slice s lo (len s).
Definition slice_to (s : list byte) (hi : Z) : outcome (list byte) :=
  slice s 0 hi.

(** [dst] with the bytes [src] stored from offset [lo] on. *)
Definition overwrite (dst : list byte) (lo : Z) (src : list byte) : list byte :=
  firstn (Z.to_nat lo) dst ++ src ++ skipn (Z.to_nat lo + length src) dst.

(** The effect of [copy(dst[lo:hi], src)] on [dst]: the first
    [min (hi - lo) (len src)] bytes of [src] are stored at [lo]. *)
Definition copy_at (dst : list byte) (lo hi : Z) (src : list byte)
  : outcome (list byte) :=
  if (0 <=? lo) && (lo <=? hi) && (hi <=? len dst)
  then Ret (overwrite dst lo (firstn (Z.to_nat (hi - lo)) src))
  else Panic.

(** [copy(dst, src)]. *)
Definition copy (dst src : list byte) : outcome (list byte) :=
  copy_at dst 0 (len dst) src.

(** [s[i]]. *)
Definition index (s : list byte) (i : Z) : outcome byte :=
  if (0 <=? i) && (i <? len s)
  then match nth_error s (Z.to_nat i) with
       | Some x => Ret x
       | None => Panic
       end
  else Panic.

(** [make([]byte, n)]. *)
Definition make (n : Z) : outcome (list byte) :=
  if n <? 0 then Panic else Ret (repeat x00 (Z.to_nat n)).

(** ** The buffer *)

Record RingBuffer : Type := mkRingBuffer {
  buf : list byte;
  growSize : Z;
  readPos : Z;
  written : Z
}.

(** The zero value [RingBuffer{}]. *)
Definition zeroRingBuffer : RingBuffer :=
  {| buf := []; growSize := 0; readPos := 0; written := 0 |}.

Definition set_buf (b : list byte) (r : RingBuffer) : RingBuffer :=
  {| buf := b; growSize := growSize r; readPos := readPos r; written := written r |}.
Definition set_growSize (g : Z) (r : RingBuffer) : RingBuffer :=
  {| buf := buf r; growSize := g; readPos := readPos r; written := written r |}.
Definition set_readPos (x : Z) (r : RingBuffer) : RingBuffer :=
  {| buf := buf r; growSize := growSize r; readPos := x; written := written r |}.
Definition set_written (x : Z) (r : RingBuffer) : RingBuffer :=
  {| buf := buf r; growSize := growSize r; readPos := readPos r; written := x |}.

(** ** The method monad: receiver state and panics *)

Definition M (A : Type) : Type := RingBuffer -> outcome (A * RingBuffer).

Definition ret {A : Type} (x : A) : M A := fun r => Ret (x, r).

Definition bind {A B : Type} (m : M A) (k : A -> M B) : M B :=
  fun r =>
    match m r with
    | Ret (x, r') => k x r'
    | Panic => Panic
    end.

Definition get : M RingBuffer := fun r => Ret (r, r).
Definition modify (f : RingBuffer -> RingBuffer) : M unit := fun r => Ret (tt, f r).

Definition lift {A : Type} (o : outcome A) : M A :=
  fun r =>
    match o with
    | Ret x => Ret (x, r)
    | Panic => Panic
    end.

Declare Scope go_scope.
Delimit Scope go_scope with go.
Notation "x <- m ;; k" := (bind m (fun x => k))
  (at level 61, m at next level, right associativity) : go_scope.
Notation "' pat <- m ;; k" := (bind m (fun x => match x with pat => k end))
  (at level 61, pat pattern, m at next level, right associativity) : go_scope.
Notation "m ;;; k" := (bind m (fun _ => k))
  (at level 61, right associativity) : go_scope.
Local Open Scope go_scope.

(** The variables captured by the closure of [FindBytes]. *)
Record findState : Type := mkFindState {
  foundIdx : Z;
  currentOfs : Z;
  potentialStartIdx : Z
}.

Section Model.

Variable a : arch.

(** *** Arithmetic on [int] *)

Definition iadd (x y : Z) : Z := wrap a (x + y).
Definition isub (x y : Z) : Z := wrap a (x - y).

(** [x % y]: truncated remainder, panics on a zero divisor. *)
Definition irem (x y : Z) : outcome Z :=
  if y =? 0 then Panic else Ret (Z.rem x y).

(** *** Construction *)

Definition Initialize (hint : Z) : M unit :=
  let g :=
    if hint <=? 15 then 16
    else if hint >? 1048576 then 1048576
    else
      let g := isub hint 1 in
      let g := Z.lor g (Z.shiftr g 1) in
      let g := Z.lor g (Z.shiftr g 2) in
      let g := Z.lor g (Z.shiftr g 4) in
      let g := Z.lor g (Z.shiftr g 8) in
      let g := Z.lor g (Z.shiftr g 16) in
      iadd g 1 in
  b <- lift (make g) ;;
  modify (set_buf b) ;;;
  modify (set_growSize g).

Definition New (hint : Z) : outcome RingBuffer :=
  match Initialize hint zeroRingBuffer with
  | Ret (_, r) => Ret r
  | Panic => Panic
  end.

(** *** Spans *)

Definition readInfo : M (Z * Z * Z) :=
  r <- get ;;
  let ofs1 := readPos r in
  if readPos r <=? isub (len (buf r)) (written r)
  then ret (ofs1, written r, 0)
  else ret (ofs1,
            isub (len (buf r)) (readPos r),
            isub (written r) (isub (len (buf r)) (readPos r))).

Definition writeInfo : M (Z * Z * Z) :=
  r <- get ;;
  if written r =? len (buf r) then ret (0, 0, 0)
  else if readPos r <? isub (len (buf r)) (written r) then
    let e := iadd (readPos r) (written r) in
    ret (e, isub (len (buf r)) e, if readPos r >? 0 then readPos r else 0)
  else
    ret (isub (readPos r) (isub (len (buf r)) (written r)),
         isub (len (buf r)) (written r),
         0).

(** *** Growth *)

Definition growBuffer (newSize : Z) : M unit :=
  r <- get ;;
  if newSize >? len (buf r) then
    newBuf <- lift (make newSize) ;;
    newBuf <-
      (if iadd (readPos r) (written r) <=? len (buf r) then
         src <- lift (slice (buf r) (readPos r) (iadd (readPos r) (written r))) ;;
         lift (copy newBuf src)
       else
         let temp := isub (len (buf r)) (readPos r) in
         src1 <- lift (slice_from (buf r) (readPos r)) ;;
         newBuf <- lift (copy newBuf src1) ;;
         src2 <- lift (slice_to (buf r) (isub (written r) temp)) ;;
         lift (copy_at newBuf temp (len newBuf) src2)) ;;
    modify (set_buf newBuf) ;;;
    modify (set_readPos 0)
  else ret tt.

Definition ensureCapacity (n : Z) : M (option error) :=
  r <- get ;;
  if n >? isub (len (buf r)) (written r) then
    let required := iadd (written r) n in
    if required <? n then ret (Some ErrBufferOverflow)
    else
      rem <- lift (irem required (growSize r)) ;;
      let newSize := iadd required (isub (growSize r) rem) in
      growBuffer newSize ;;;
      ret None
  else ret None.

(** *** Cursor movement *)

Definition advanceReadPos (n : Z) : M unit :=
  r <- get ;;
  (if readPos r <? isub (len (buf r)) n
   then modify (set_readPos (iadd (readPos r) n))
   else modify (set_readPos (isub (readPos r) (isub (len (buf r)) n)))) ;;;
  modify (fun r => set_written (isub (written r) n) r).

Definition advanceWritePos (n : Z) : M unit :=
  modify (fun r => set_written (iadd (written r) n) r).

(** *** Peek, Read, Write

    A reading method returns the caller's slice as it is left by the call,
    the count and the error. *)

Definition peek (p : list byte) : M (list byte * Z * option error) :=
  let n := len p in
  if n =? 0 then ret (p, 0, None)
  else
    '(ofs1, len1, len2) <- readInfo ;;
    if (len1 =? 0) && (len2 =? 0) then ret (p, 0, Some EOF)
    else
      r <- get ;;
      if n <=? len1 then
        src <- lift (slice (buf r) ofs1 (iadd ofs1 n)) ;;
        p1 <- lift (copy p src) ;;
        ret (p1, n, None)
      else
        let n := if n >? iadd len1 len2 then iadd len1 len2 else n in
        src1 <- lift (slice_from (buf r) ofs1) ;;
        p1 <- lift (copy p src1) ;;
        src2 <- lift (slice_to (buf r) len2) ;;
        p2 <- lift (copy_at p1 len1 (len p1) src2) ;;
        ret (p2, n, None).

Definition Peek (p : list byte) : M (list byte * Z * option error) :=
  peek p.

Definition Read (p : list byte) : M (list byte * Z * option error) :=
  '(p1, n, err) <- peek p ;;
  match err with
  | None => advanceReadPos n ;;; ret (p1, n, err)
  | Some _ => ret (p1, n, err)
  end.

Definition Write (p : list byte) : M (Z * option error) :=
  let n := len p in
  if n =? 0 then ret (0, None)
  else
    err <- ensureCapacity n ;;
    match err with
    | Some e => ret (0, Some e)
    | None =>
        '(ofs1, len1, len2) <- writeInfo ;;
        r <- get ;;
        b <-
          (if n <=? len1 then
             lift (copy_at (buf r) ofs1 (iadd ofs1 n) p)
           else
             b1 <- lift (obind (slice_to p len1)
                               (copy_at (buf r) ofs1 (len (buf r)))) ;;
             lift (obind (slice_from p len1) (copy_at b1 0 len2))) ;;
        modify (set_buf b) ;;;
        advanceWritePos n ;;;
        ret (n, None)
    end.

(** *** Scan and the searches

    The visitor is a closure: the variables it captures are a state [S]
    passed through the calls. *)

Fixpoint scan_loop {S : Type} (fn : byte -> Z -> S -> outcome (bool * S))
    (b : list byte) (ofs base : Z) (todo : nat) (idx : Z) (s : S)
  : outcome (bool * S) :=
  match todo with
  | O => Ret (false, s)
  | Datatypes.S todo' =>
      obind (index b (iadd ofs idx)) (fun elem =>
      obind (fn elem (iadd base idx) s) (fun '(stop, s') =>
      if stop : bool then Ret (true, s')
      else scan_loop fn b ofs base todo' (iadd idx 1) s'))
  end.

Definition Scan {S : Type} (fn : byte -> Z -> S -> outcome (bool * S)) (s : S)
  : M S :=
  '(ofs1, len1, len2) <- readInfo ;;
  r <- get ;;
  '(stop, s1) <- lift (scan_loop fn (buf r) ofs1 0 (Z.to_nat len1) 0 s) ;;
  if stop : bool then ret s1
  else
    '(_, s2) <- lift (scan_loop fn (buf r) 0 len1 (Z.to_nat len2) 0 s1) ;;
    ret s2.

Definition Find (b : byte) : M Z :=
  Scan (fun elem idx found =>
          if Byte.eqb elem b then Ret (true, idx) else Ret (false, found))
       (-1).

Definition FindBytes_visit (b : list byte) (elem : byte) (idx : Z) (s : findState)
  : outcome (bool * findState) :=
  obind (index b (currentOfs s)) (fun t =>
  if Byte.eqb elem t then
    let start := if currentOfs s =? 0 then idx else potentialStartIdx s in
    let ofs := iadd (currentOfs s) 1 in
    if ofs =? len b
    then Ret (true, mkFindState start ofs start)
    else Ret (false, mkFindState (foundIdx s) ofs start)
  else Ret (false, mkFindState (foundIdx s) 0 (potentialStartIdx s))).

Definition FindBytes (b : list byte) : M Z :=
  if len b =? 0 then ret (-1)
  else
    s <- Scan (FindBytes_visit b) (mkFindState (-1) 0 (-1)) ;;
    ret (foundIdx s).

Definition Len : M Z :=
  r <- get ;;
  ret (written r).

End Model.

(** ** Specification-level notions *)

(** The capacity [C]: [len(r.buf)]. *)
Definition cap (r : RingBuffer) : Z := len (buf r).

(** The data-model invariant: the storage is a Go slice (its length is an
    [int]), the counters are within their bounds, and the quantum is the one
    [Initialize] stores. *)
Record wf (a : arch) (r : RingBuffer) : Prop := mkWf {
  wf_cap : cap r <= max_int a;
  wf_written : 0 <= written r <= cap r;
  wf_readPos : 0 <= readPos r < cap r;
  wf_growSize : 16 <= growSize r <= 1048576
}.

(** The logical content: the [written] bytes of the circular span that
    starts at [readPos]. *)
Definition unread (r : RingBuffer) : list byte :=
  firstn (Z.to_nat (written r))
         (skipn (Z.to_nat (readPos r)) (buf r) ++ buf r).

(** The bytes a reading call hands back: the first [n] bytes of the
    caller's slice. *)
Definition returned (res : list byte * Z * option error) : list byte :=
  let '(p, n, _) := res in firstn (Z.to_nat n) p.

(** The count a reading call returns. *)
Definition count_of (res : list byte * Z * option error) : Z :=
  let '(_, n, _) := res in n.

(** The size [ensureCapacity] asks [growBuffer] for, before wrap-around. *)
Definition grow_target (r : RingBuffer) (n : Z) : Z :=
  let required := written r + n in
  required + (growSize r - required mod growSize r).

(** The capacity computation of a write of [n] bytes stays within [int]:
    either no growth is needed, or the end of the content
    ([readPos + written], computed by [growBuffer]) and the target size
    are representable. *)
Definition grow_in_range (a : arch) (r : RingBuffer) (n : Z) : Prop :=
  n <= cap r - written r
  \/ (readPos r + written r <= max_int a /\ grow_target r n <= max_int a).

(** [x] rounded up to a multiple of [q]: the least multiple of [q] that is
    at least [x]. *)
Definition round_up_multiple (x q : Z) : Z := (x + q - 1) / q * q.

(** Running a list of calls in order, collecting the results. *)
Fixpoint Writes (a : arch) (ps : list (list byte)) : M (list (Z * option error)) :=
  match ps with
  | [] => ret []
  | p :: ps' =>
      (x <- Write a p ;; xs <- Writes a ps' ;; ret (x :: xs))%go
  end.

Fixpoint Reads (a : arch) (ds : list (list byte))
  : M (list (list byte * Z * option error)) :=
  match ds with
  | [] => ret []
  | d :: ds' =>
      (x <- Read a d ;; xs <- Reads a ds' ;; ret (x :: xs))%go
  end.

(** The five or-shift steps of [Initialize]. *)
Definition smear (g : Z) : Z :=
  let g := Z.lor g (Z.shiftr g 1) in
  let g := Z.lor g (Z.shiftr g 2) in
  let g := Z.lor g (Z.shiftr g 4) in
  let g := Z.lor g (Z.shiftr g 8) in
  Z.lor g (Z.shiftr g 16).

(** Bit [n] of [y'] is set exactly when one of the [m] bits of [y] from
    [n] upwards is. *)
Definition spread (m y y' : Z) : Prop :=
  forall n, 0 <= n ->
    Z.testbit y' n = true <-> exists j, 0 <= j < m /\ Z.testbit y (n + j) = true.

(** The error of a read into [p]: end of data when [p] is not empty and
    nothing is unread. *)
Definition peek_err (r : RingBuffer) (p : list byte) : option error :=
  if (0 <? len p) && (written r =? 0) then Some EOF else None.

(** The state a read of [n] bytes leaves. *)
Definition advance (r : RingBuffer) (n : Z) : RingBuffer :=
  {| buf := buf r;
     growSize := growSize r;
     readPos := if readPos r + n <? cap r then readPos r + n
                else readPos r + n - cap r;
     written := written r - n |}.

(** The state [growBuffer] leaves when it grows to [newSize]: the content
    moved to the front of a fresh array. *)
Definition grown (r : RingBuffer) (newSize : Z) : RingBuffer :=
  {| buf := unread r ++ repeat x00 (Z.to_nat (newSize - written r));
     growSize := growSize r;
     readPos := 0;
     written := written r |}.

(** The quantum the spec asks for: 16 up to 15, 1,048,576 above it, and in
    between the request rounded up to a power of two. *)
Definition normalized (hint : Z) : Z :=
  if hint <=? 15 then 16
  else if 1048576 <? hint then 1048576
  else 2 ^ Z.log2_up hint.

(** The visitor run over a plain list, indices counted from [idx]. *)
Fixpoint scan_list {S : Type} (fn : byte -> Z -> S -> outcome (bool * S))
    (l : list byte) (idx : Z) (s : S) : outcome (bool * S) :=
  match l with
  | [] => Ret (false, s)
  | x :: l' =>
      obind (fn x idx s) (fun '(stop, s') =>
      if stop : bool then Ret (true, s') else scan_list fn l' (idx + 1) s')
  end.

(** The streaming match of the spec, over the logical content: a candidate
    start [start] and a match offset [ofs]; a matching byte advances the
    offset (the start is recorded when the offset is zero) and completes the
    match when the offset reaches the target's length; a mismatch resets the
    offset to zero, and the scan goes on from where it is in the stream: it
    does not go back to the byte after the candidate start, and the next
    byte is the first to be compared with the first byte of the target. *)
Fixpoint stream_match (target content : list byte) (idx start : Z) (ofs : nat)
  : Z :=
  match content with
  | [] => -1
  | c :: rest =>
      match nth_error target ofs with
      | None => -1
      | Some t =>
          if Byte.eqb c t then
            let start := if Nat.eqb ofs 0 then idx else start in
            if Nat.eqb (Datatypes.S ofs) (length target) then start
            else stream_match target rest (idx + 1) start (Datatypes.S ofs)
          else stream_match target rest (idx + 1) start 0
      end
  end.

(** An empty target is not found. *)
Definition find_sequence (target content : list byte) : Z :=
  match target with
  | [] => -1
  | _ :: _ => stream_match target content 0 (-1) 0
  end.

(** Every capacity computation of the run of writes stays in range. *)
Fixpoint writes_in_range (a : arch) (ps : list (list byte)) (r : RingBuffer)
  : Prop :=
  match ps with
  | [] => True
  | p :: ps' =>
      grow_in_range a r (len p)
      /\ forall x r', Write a p r = Ret (x, r') -> writes_in_range a ps' r'
  end.

(** Two chunks for a 32-bit target: 2^30 - 16 bytes of 1 and 2^30 bytes
    of 2; and a destination of [n] bytes. *)
Definition first_chunk : list byte := repeat x01 (Z.to_nat 1073741808).

Definition second_chunk : list byte := repeat x02 (Z.to_nat 1073741824).

(** 2^30 + 16 bytes of 3. *)
Definition third_chunk : list byte := repeat x03 (Z.to_nat 1073741840).

Definition zeros (n : Z) : list byte := repeat x00 (Z.to_nat n).

(** [New(16)]. *)
Definition fresh16 : RingBuffer :=
  {| buf := repeat x00 16; growSize := 16; readPos := 0; written := 0 |}.

(** "aab" and "ab". *)
Definition aab : list byte := [x61; x61; x62].

Definition ab : list byte := [x61; x62].

(** "Hello". *)
Definition hello : list byte := [x48; x65; x6c; x6c; x6f].

(** [New(16)] after [Write("aab")]. *)
Definition holds_aab : RingBuffer :=
  {| buf := aab ++ repeat x00 13; growSize := 16; readPos := 0; written := 3 |}.

(** The index of the first [b] in a list, counted from [idx], or -1. *)
Fixpoint find_index (b : byte) (l : list byte) (idx : Z) : Z :=
  match l with
  | [] => -1
  | x :: l' => if Byte.eqb x b then idx else find_index b l' (idx + 1)
  end.

(** The fields and the storage length are values of type [int]. *)
Definition int_typed (a : arch) (r : RingBuffer) : Prop :=
  cap r <= max_int a
  /\ min_int a <= readPos r <= max_int a
  /\ min_int a <= written r <= max_int a.

(** Two slices of one length that agree at the positions in [P]. *)
Definition same_on (P : nat -> Prop) (p q : list byte) : Prop :=
  length p = length q /\ forall i, P i -> nth_error p i = nth_error q i.

(** [peek] after [readInfo]. *)
Definition peek_body (a : arch) (p : list byte) (ofs1 len1 len2 : Z)
  : M (list byte * Z * option error) :=
  (if (len1 =? 0) && (len2 =? 0) then ret (p, 0, Some EOF)
   else
     r <- get ;;
     if len p <=? len1 then
       src <- lift (slice (buf r) ofs1 (iadd a ofs1 (len p))) ;;
       p1 <- lift (copy p src) ;;
       ret (p1, len p, None)
     else
       let n := if len p >? iadd a len1 len2 then iadd a len1 len2 else len p in
       src1 <- lift (slice_from (buf r) ofs1) ;;
       p1 <- lift (copy p src1) ;;
       src2 <- lift (slice_to (buf r) len2) ;;
       p2 <- lift (copy_at p1 len1 (len p1) src2) ;;
       ret (p2, n, None))%go.

(** A 16-byte buffer whose content wraps around: the eight unread bytes
    "abcdefgh" start at offset 12 and end at offset 4. *)
Definition wrapped16 : RingBuffer :=
  {| buf := [x65; x66; x67; x68] ++ repeat x00 8 ++ [x61; x62; x63; x64];
     growSize := 16; readPos := 12; written := 8 |}.

(** A buffer with a quantum of 16 that holds [c], followed by sixteen
    free cells. *)
Definition holds_chunk (c : list byte) : RingBuffer :=
  {| buf := c ++ zeros 16; growSize := 16; readPos := 0; written := len c |}.

(** A call of [Write], [Read] or [Peek], and what it hands back: for the
    reading calls the bytes returned (the first [n] of the destination),
    the count and the error. *)
Inductive call : Type :=
| CallWrite (p : list byte)
| CallRead (p : list byte)
| CallPeek (p : list byte).

Inductive reply : Type :=
| Wrote (n : Z) (err : option error)
| Got (bytes : list byte) (n : Z) (err : option error).

Definition got (x : list byte * Z * option error) : reply :=
  Got (returned x) (count_of x) (snd x).

Definition run_call (a : arch) (c : call) : M reply :=
  match c with
  | CallWrite p => ('(n, err) <- Write a p ;; ret (Wrote n err))%go
  | CallRead p => (x <- Read a p ;; ret (got x))%go
  | CallPeek p => (x <- Peek a p ;; ret (got x))%go
  end.

Fixpoint run_calls (a : arch) (cs : list call) : M (list reply) :=
  match cs with
  | [] => ret []
  | c :: cs' =>
      (x <- run_call a c ;; xs <- run_calls a cs' ;; ret (x :: xs))%go
  end.

(** The queue of bytes the buffer stands for: a write appends, a read
    takes from the front as many bytes as the destination holds, a peek
    shows them and leaves them. *)
Definition queue_front (q p : list byte) : reply :=
  let n := Z.min (len p) (len q) in
  Got (firstn (Z.to_nat n) q) n
      (if (0 <? len p) && (len q =? 0) then Some EOF else None).

Definition queue_call (c : call) (q : list byte) : reply * list byte :=
  match c with
  | CallWrite p => (Wrote (len p) None, q ++ p)
  | CallRead p =>
      (queue_front q p, skipn (Z.to_nat (Z.min (len p) (len q))) q)
  | CallPeek p => (queue_front q p, q)
  end.

Fixpoint queue_calls (cs : list call) (q : list byte)
  : list reply * list byte :=
  match cs with
  | [] => ([], q)
  | c :: cs' =>
      let '(x, q1) := queue_call c q in
      let '(xs, q2) := queue_calls cs' q1 in
      (x :: xs, q2)
  end.

(** The number of bytes the calls write. *)
Fixpoint bytes_written (cs : list call) : Z :=
  match cs with
  | [] => 0
  | CallWrite p :: cs' => len p + bytes_written cs'
  | _ :: cs' => bytes_written cs'
  end.

(** ** Facts on machine integers *)

Section IntFacts.

Variable a : arch.

Lemma max_int_lower : 2147483647 <= max_int a.
Proof. destruct a; vm_compute; discriminate. Qed.

Lemma min_int_max_int : min_int a = - max_int a - 1.
Proof. destruct a; reflexivity. Qed.

Lemma modulus_max_int : 2 ^ int_bits a = 2 * max_int a + 2.
Proof. destruct a; reflexivity. Qed.

Lemma wrap_small (z : Z) : min_int a <= z <= max_int a -> wrap a z = z.
Proof.
  intros H. unfold wrap.
  rewrite Z.mod_small; [lia|].
  rewrite modulus_max_int, min_int_max_int in *. lia.
Qed.

(** One overflow above [max_int] lands on a negative number. *)
Lemma wrap_above (z : Z) :
  max_int a < z <= 2 * max_int a + 1 -> wrap a z = z - 2 ^ int_bits a.
Proof.
  intros H. unfold wrap.
  replace (z - min_int a) with ((z - min_int a - 2 ^ int_bits a) + 1 * 2 ^ int_bits a) by lia.
  rewrite Z.mod_add by (rewrite modulus_max_int; pose proof max_int_lower; lia).
  rewrite Z.mod_small; [lia|].
  rewrite modulus_max_int, min_int_max_int in *. lia.
Qed.

Lemma iadd_small (x y : Z) :
  min_int a <= x + y <= max_int a -> iadd a x y = x + y.
Proof. apply wrap_small. Qed.

Lemma isub_small (x y : Z) :
  min_int a <= x - y <= max_int a -> isub a x y = x - y.
Proof. apply wrap_small. Qed.

End IntFacts.

(** ** The power-of-two rounding of [Initialize] *)

Lemma spread_start (y : Z) : spread 1 y y.
Proof.
  intros n Hn. split.
  - intros H. exists 0. split; [lia|]. now rewrite Z.add_0_r.
  - intros (j & Hj & H). now replace (n + j) with n in H by lia.
Qed.

Lemma spread_step (m y y' : Z) :
  0 <= m -> spread m y y' -> spread (2 * m) y (Z.lor y' (Z.shiftr y' m)).
Proof.
  intros Hm H n Hn.
  rewrite Z.lor_spec, Z.shiftr_spec, orb_true_iff by assumption.
  rewrite (H n Hn), (H (n + m)) by lia. split.
  - intros [(j & Hj & Hb)|(j & Hj & Hb)].
    + exists j. split; [lia|assumption].
    + exists (m + j). split; [lia|]. now replace (n + (m + j)) with (n + m + j) by lia.
  - intros (j & Hj & Hb). destruct (Z.lt_ge_cases j m).
    + left. exists j. split; [lia|assumption].
    + right. exists (j - m). split; [lia|].
      now replace (n + m + (j - m)) with (n + j) by lia.
Qed.

Lemma spread_smear (y : Z) : spread 32 y (smear y).
Proof.
  unfold smear. cbv zeta.
  apply (spread_step 16), (spread_step 8), (spread_step 4), (spread_step 2),
    (spread_step 1); try lia.
  apply spread_start.
Qed.

Lemma smear_ones (y k : Z) :
  1 <= k <= 32 -> 2 ^ (k - 1) <= y < 2 ^ k -> smear y = Z.ones k.
Proof.
  intros Hk Hy. apply Z.bits_inj'. intros n Hn.
  rewrite Z.testbit_ones_nonneg by lia.
  destruct (Z.ltb_spec n k) as [L|L].
  - apply (spread_smear y n Hn). exists (k - 1 - n). split; [lia|].
    replace (n + (k - 1 - n)) with (k - 1) by lia.
    apply Z.testbit_true; [lia|].
    assert (E : y / 2 ^ (k - 1) = 1).
    { symmetry. apply (Z.div_unique y (2 ^ (k - 1)) 1 (y - 2 ^ (k - 1))).
      - left. replace (2 ^ k) with (2 * 2 ^ (k - 1)) in Hy
          by (rewrite <- Z.pow_succ_r by lia; f_equal; lia).
        lia.
      - lia. }
    now rewrite E.
  - destruct (Z.testbit (smear y) n) eqn:E; [|reflexivity].
    apply (spread_smear y n Hn) in E. destruct E as (j & Hj & Hb).
    assert (F : Z.testbit y (n + j) = false).
    { apply Z.testbit_false; [lia|].
      rewrite Z.div_small; [reflexivity|].
      split; [pose proof (Z.pow_pos_nonneg 2 (k - 1)); lia|].
      apply Z.lt_le_trans with (2 ^ k); [lia|].
      apply Z.pow_le_mono_r; lia. }
    congruence.
Qed.

(** ** Facts on lists and slices *)

Lemma nth_error_repeat_if (A : Type) (x : A) (m i : nat) :
  nth_error (repeat x m) i = if (i <? m)%nat then Some x else None.
Proof.
  destruct (Nat.ltb_spec i m).
  - now apply nth_error_repeat.
  - apply nth_error_None. rewrite repeat_length. lia.
Qed.

Lemma len_nonneg (s : list byte) : 0 <= len s.
Proof. unfold len. lia. Qed.

Lemma length_overwrite (dst : list byte) (lo : Z) (src : list byte) :
  length (overwrite dst lo src) =
  (Init.Nat.min (Z.to_nat lo) (length dst) + (length src
     + (length dst - (Z.to_nat lo + length src))))%nat.
Proof.
  unfold overwrite. now rewrite !length_app, length_firstn, length_skipn.
Qed.

(** Storing nothing changes nothing. *)
Lemma overwrite_nil (dst : list byte) (lo : Z) : overwrite dst lo [] = dst.
Proof.
  unfold overwrite. cbn [app length]. rewrite Nat.add_0_r.
  apply firstn_skipn.
Qed.

(** Decide the minima of the goal, innermost first, so that the arithmetic
    left to [lia] stays small. *)
Ltac min_simp :=
  repeat match goal with
         | |- context [Init.Nat.min ?x ?y] =>
             lazymatch x with context [Init.Nat.min _ _] => fail | _ => idtac end;
             lazymatch y with context [Init.Nat.min _ _] => fail | _ => idtac end;
             first [ replace (Init.Nat.min x y) with x by lia
                   | replace (Init.Nat.min x y) with y by lia ]
         end.

Ltac simp_len :=
  unfold cap, len in *;
  repeat rewrite ?length_overwrite, ?length_app, ?length_firstn,
    ?length_skipn, ?repeat_length in *;
  min_simp.

Ltac simp_nth :=
  repeat rewrite ?nth_error_app, ?nth_error_firstn, ?nth_error_skipn,
    ?nth_error_repeat_if, ?length_app, ?length_firstn, ?length_skipn,
    ?repeat_length.

Ltac break_ltb :=
  repeat match goal with
         | |- context [(?x <? ?y)%nat] => destruct (Nat.ltb_spec x y); try lia
         end.

Ltac close_nth :=
  try reflexivity; try lia;
  try (f_equal; lia);
  try (apply nth_error_None; lia);
  try (symmetry; apply nth_error_None; lia);
  try (etransitivity;
       [ apply nth_error_None; lia | symmetry; apply nth_error_None; lia ]).

(** The lengths of the goal as plain arithmetic. *)
Ltac len_goal :=
  unfold cap, len;
  repeat rewrite ?length_overwrite, ?length_app, ?length_firstn,
    ?length_skipn, ?repeat_length;
  min_simp.

(** Drop the [firstn] and [skipn] that do nothing. *)
Ltac list_simp :=
  repeat match goal with
         | |- context [skipn (Z.to_nat 0) ?l] =>
             change (skipn (Z.to_nat 0) l) with l
         | |- context [firstn ?n ?l] =>
             rewrite (@firstn_all2 _ n l) by (len_goal; lia)
         end.

(** Equality of two lists built from [firstn], [skipn], [++] and [repeat],
    position by position. *)
Ltac list_eq :=
  unfold cap, len in *; list_simp;
  apply nth_error_ext; intro; unfold overwrite; simp_nth; min_simp;
  break_ltb; close_nth.

Lemma slice_ok (s : list byte) (lo hi : Z) :
  0 <= lo <= hi -> hi <= len s ->
  slice s lo hi = Ret (firstn (Z.to_nat (hi - lo)) (skipn (Z.to_nat lo) s)).
Proof.
  intros H1 H2. unfold slice.
  replace (0 <=? lo) with true by (symmetry; apply Z.leb_le; lia).
  replace (lo <=? hi) with true by (symmetry; apply Z.leb_le; lia).
  replace (hi <=? len s) with true by (symmetry; apply Z.leb_le; lia).
  reflexivity.
Qed.

Lemma copy_at_ok (dst : list byte) (lo hi : Z) (src : list byte) :
  0 <= lo <= hi -> hi <= len dst ->
  copy_at dst lo hi src = Ret (overwrite dst lo (firstn (Z.to_nat (hi - lo)) src)).
Proof.
  intros H1 H2. unfold copy_at.
  replace (0 <=? lo) with true by (symmetry; apply Z.leb_le; lia).
  replace (lo <=? hi) with true by (symmetry; apply Z.leb_le; lia).
  replace (hi <=? len dst) with true by (symmetry; apply Z.leb_le; lia).
  reflexivity.
Qed.

Lemma make_ok (n : Z) : 0 <= n -> make n = Ret (repeat x00 (Z.to_nat n)).
Proof.
  intros H. unfold make.
  now replace (n <? 0) with false by (symmetry; apply Z.ltb_ge; lia).
Qed.

Lemma bind_ret (A B : Type) (m : M A) (k : A -> M B) (r : RingBuffer)
    (x : A) (r' : RingBuffer) :
  m r = Ret (x, r') -> bind m k r = k x r'.
Proof. intros H. unfold bind. now rewrite H. Qed.

Ltac monad_simp := cbv beta iota delta [bind lift ret get modify obind].

(** Resolve the slice expressions and copies whose bounds hold. *)
Ltac go_slices :=
  unfold slice_from, slice_to, copy;
  repeat (monad_simp;
          match goal with
          | |- context [slice ?s ?lo ?hi] =>
              rewrite (slice_ok s lo hi) by (simp_len; lia)
          | |- context [copy_at ?d ?lo ?hi ?s] =>
              rewrite (copy_at_ok d lo hi s) by (simp_len; lia)
          | |- context [make ?n] =>
              rewrite (make_ok n) by (simp_len; lia)
          end);
  monad_simp.

Section Facts.

Variable a : arch.

Ltac int_facts :=
  lazymatch goal with
  | _ : 2147483647 <= max_int a |- _ => idtac
  | _ => pose proof (max_int_lower a); pose proof (min_int_max_int a)
  end.

Ltac int_simp :=
  int_facts;
  repeat match goal with
         | |- context [isub a ?x ?y] =>
             rewrite (isub_small a x y) by (simp_len; lia)
         | |- context [iadd a ?x ?y] =>
             rewrite (iadd_small a x y) by (simp_len; lia)
         end.

Ltac zbool :=
  repeat match goal with
         | |- context [?x <=? ?y] =>
             destruct (Z.leb_spec x y); try (exfalso; simp_len; lia)
         | |- context [?x <? ?y] =>
             destruct (Z.ltb_spec x y); try (exfalso; simp_len; lia)
         | |- context [?x >? ?y] => rewrite (Z.gtb_ltb x y)
         | |- context [?x =? ?y] =>
             destruct (Z.eqb_spec x y); try (exfalso; simp_len; lia)
         end.

Ltac go := repeat (progress (int_simp; go_slices)).

Ltac ret_eq :=
  repeat match goal with
         | |- Ret _ = Ret _ => f_equal
         | |- (_, _) = (_, _) => f_equal
         end;
  try reflexivity; try lia.

Lemma readInfo_wf (r : RingBuffer) :
  wf a r ->
  readInfo a r =
  Ret ((readPos r,
        Z.min (written r) (cap r - readPos r),
        written r - Z.min (written r) (cap r - readPos r)), r).
Proof.
  intros [Hc Hw Hr Hg]. unfold readInfo. monad_simp.
  fold (cap r). int_simp. zbool; ret_eq.
Qed.

Lemma peek_wf (r : RingBuffer) (p : list byte) :
  wf a r ->
  let n := Z.min (len p) (written r) in
  exists p',
    peek a p r = Ret ((p', n, peek_err r p), r)
    /\ length p' = length p
    /\ firstn (Z.to_nat n) p' = firstn (Z.to_nat n) (unread r).
Proof.
  intros Hwf n. pose proof Hwf as [Hc Hw Hr Hg].
  pose proof (len_nonneg p) as Hp.
  unfold peek, peek_err.
  destruct (Z.eqb_spec (len p) 0) as [E|E].
  - exists p. subst n. rewrite E. cbn. replace (Z.min 0 (written r)) with 0 by lia.
    repeat split; reflexivity.
  - unfold bind at 1. rewrite (readInfo_wf r Hwf).
    replace (0 <? len p) with true by (symmetry; apply Z.ltb_lt; lia).
    destruct (Z.eqb_spec (written r) 0) as [E0|E0].
    + exists p. subst n. rewrite E0. replace (Z.min (len p) 0) with 0 by lia.
      replace (Z.min 0 (cap r - readPos r)) with 0 by lia. cbn.
      repeat split; reflexivity.
    + set (len1 := Z.min (written r) (cap r - readPos r)).
      assert (Hl1 : 0 < len1 <= written r /\ len1 <= cap r - readPos r
                    /\ (len1 = written r \/ len1 = cap r - readPos r)) by lia.
      clearbody len1.
      replace (len1 =? 0) with false by (symmetry; apply Z.eqb_neq; lia).
      cbn [andb]. monad_simp.
      destruct (Z.leb_spec (len p) len1) as [L|L].
      * int_simp. go_slices.
        eexists; split; [ret_eq|].
        split; [simp_len; lia | unfold unread; subst n; list_eq].
      * int_simp. go_slices. zbool.
        -- eexists; split; [ret_eq|].
           split; [simp_len; lia | unfold unread; subst n; list_eq].
        -- eexists; split; [ret_eq|].
           split; [simp_len; lia | unfold unread; subst n; list_eq].
Qed.

Lemma advance_0 (r : RingBuffer) : wf a r -> advance r 0 = r.
Proof.
  intros [Hc Hw Hr Hg]. unfold advance. destruct r as [b g rp w]; cbn in *.
  replace (rp + 0 <? cap {| buf := b; growSize := g; readPos := rp; written := w |})
    with true by (symmetry; apply Z.ltb_lt; cbn; lia).
  f_equal; lia.
Qed.

Lemma advanceReadPos_wf (r : RingBuffer) (n : Z) :
  wf a r -> 0 <= n <= written r ->
  advanceReadPos a n r = Ret (tt, advance r n).
Proof.
  intros [Hc Hw Hr Hg] Hn. unfold advanceReadPos, advance. monad_simp.
  fold (cap r). int_simp.
  destruct (Z.ltb_spec (readPos r) (cap r - n));
    destruct (Z.ltb_spec (readPos r + n) (cap r)); try lia;
    monad_simp; unfold set_written, set_readPos; cbn; int_simp;
    do 2 f_equal; f_equal; lia.
Qed.

Lemma advance_wf (r : RingBuffer) (n : Z) :
  wf a r -> 0 <= n <= written r -> wf a (advance r n).
Proof.
  intros [Hc Hw Hr Hg] Hn. unfold advance.
  destruct (Z.ltb_spec (readPos r + n) (cap r)); split; unfold cap in *; cbn; lia.
Qed.

Lemma unread_advance (r : RingBuffer) (n : Z) :
  wf a r -> 0 <= n <= written r ->
  unread (advance r n) = skipn (Z.to_nat n) (unread r).
Proof.
  intros [Hc Hw Hr Hg] Hn. unfold advance, unread.
  destruct (Z.ltb_spec (readPos r + n) (cap r)); cbn [buf readPos written];
    list_eq.
Qed.

Lemma length_unread (r : RingBuffer) :
  wf a r -> len (unread r) = written r.
Proof.
  intros [Hc Hw Hr Hg]. unfold unread. simp_len. lia.
Qed.

Lemma Read_wf (r : RingBuffer) (p : list byte) :
  wf a r ->
  let n := Z.min (len p) (written r) in
  exists p',
    Read a p r = Ret ((p', n, peek_err r p), advance r n)
    /\ length p' = length p
    /\ firstn (Z.to_nat n) p' = firstn (Z.to_nat n) (unread r).
Proof.
  intros Hwf n. destruct (peek_wf r p Hwf) as (p' & Hpk & Hlen & Hpre).
  fold n in Hpk, Hpre. exists p'. split; [|split; assumption].
  pose proof Hwf as [Hc Hw Hr Hg]. pose proof (len_nonneg p).
  unfold Read. unfold bind at 1. rewrite Hpk.
  unfold peek_err in *.
  destruct ((0 <? len p) && (written r =? 0)) eqn:E.
  - apply andb_true_iff in E as [_ E]. apply Z.eqb_eq in E.
    assert (n = 0) by (subst n; lia). rewrite H0.
    now rewrite advance_0.
  - unfold bind. rewrite advanceReadPos_wf by (subst n; lia || assumption).
    reflexivity.
Qed.

Lemma growBuffer_wf (r : RingBuffer) (newSize : Z) :
  wf a r -> cap r < newSize -> readPos r + written r <= max_int a ->
  growBuffer a newSize r = Ret (tt, grown r newSize).
Proof.
  intros [Hc Hw Hr Hg] HN He. unfold growBuffer. monad_simp.
  replace (newSize >? len (buf r)) with true
    by (symmetry; rewrite Z.gtb_ltb; apply Z.ltb_lt; exact HN).
  go_slices. int_simp.
  destruct (Z.leb_spec (readPos r + written r) (len (buf r))).
  - go_slices. unfold set_readPos, set_buf, grown; cbn.
    do 2 f_equal. f_equal. unfold unread. list_eq.
  - go_slices. unfold set_readPos, set_buf, grown; cbn.
    do 2 f_equal. f_equal. unfold unread. list_eq.
Qed.

Lemma grown_wf (r : RingBuffer) (newSize : Z) :
  wf a r -> cap r < newSize <= max_int a -> wf a (grown r newSize).
Proof.
  intros [Hc Hw Hr Hg] HN. unfold grown, unread.
  split; unfold cap; cbn; simp_len; lia.
Qed.

Lemma unread_grown (r : RingBuffer) (newSize : Z) :
  wf a r -> cap r < newSize -> unread (grown r newSize) = unread r.
Proof.
  intros [Hc Hw Hr Hg] HN. unfold grown. unfold unread at 1. cbn.
  unfold unread. list_eq.
Qed.

Lemma cap_grown (r : RingBuffer) (newSize : Z) :
  wf a r -> cap r < newSize -> cap (grown r newSize) = newSize.
Proof.
  intros [Hc Hw Hr Hg] HN. unfold grown, unread, cap. cbn. simp_len. lia.
Qed.

Lemma grow_target_bounds (r : RingBuffer) (n : Z) :
  0 < growSize r ->
  written r + n < grow_target r n <= written r + n + growSize r.
Proof.
  intros Hg. unfold grow_target.
  pose proof (Z.mod_pos_bound (written r + n) (growSize r) Hg). lia.
Qed.

(** The three ways [ensureCapacity] ends on a well-formed buffer, and the
    fourth, where the target size wraps around. *)
Lemma ensureCapacity_room (r : RingBuffer) (n : Z) :
  wf a r -> n <= cap r - written r ->
  ensureCapacity a n r = Ret (None, r).
Proof.
  intros [Hc Hw Hr Hg] Hn. unfold ensureCapacity. monad_simp. int_simp.
  now replace (n >? len (buf r) - written r) with false
    by (symmetry; rewrite Z.gtb_ltb; apply Z.ltb_ge; exact Hn).
Qed.

Lemma ensureCapacity_overflow (r : RingBuffer) (n : Z) :
  wf a r -> n <= max_int a -> max_int a < written r + n ->
  ensureCapacity a n r = Ret (Some ErrBufferOverflow, r).
Proof.
  intros [Hc Hw Hr Hg] Hn Ho. unfold ensureCapacity. monad_simp. int_simp.
  replace (n >? len (buf r) - written r) with true
    by (symmetry; rewrite Z.gtb_ltb; apply Z.ltb_lt; simp_len; lia).
  unfold iadd. rewrite wrap_above by (simp_len; lia).
  rewrite modulus_max_int.
  now replace (written r + n - (2 * max_int a + 2) <? n) with true
    by (symmetry; apply Z.ltb_lt; simp_len; lia).
Qed.

Lemma ensureCapacity_grow (r : RingBuffer) (n : Z) :
  wf a r -> cap r - written r < n ->
  readPos r + written r <= max_int a -> grow_target r n <= max_int a ->
  ensureCapacity a n r = Ret (None, grown r (grow_target r n)).
Proof.
  intros Hwf Hn He Ht. pose proof Hwf as [Hc Hw Hr Hg].
  pose proof (grow_target_bounds r n ltac:(lia)) as Hb.
  unfold ensureCapacity. monad_simp. int_simp.
  replace (n >? len (buf r) - written r) with true
    by (symmetry; rewrite Z.gtb_ltb; apply Z.ltb_lt; exact Hn).
  replace (written r + n <? n) with false by (symmetry; apply Z.ltb_ge; lia).
  unfold irem.
  replace (growSize r =? 0) with false by (symmetry; apply Z.eqb_neq; lia).
  rewrite Z.rem_mod_nonneg by (simp_len; lia).
  pose proof (Z.mod_pos_bound (written r + n) (growSize r) ltac:(lia)).
  unfold grow_target in *. int_simp.
  rewrite growBuffer_wf by (assumption || (simp_len; lia)).
  reflexivity.
Qed.

Lemma ensureCapacity_wrapped_target (r : RingBuffer) (n : Z) :
  wf a r -> cap r - written r < n -> written r + n <= max_int a ->
  max_int a < grow_target r n ->
  ensureCapacity a n r = Ret (None, r).
Proof.
  intros Hwf Hn Hreq Ht. pose proof Hwf as [Hc Hw Hr Hg].
  pose proof (grow_target_bounds r n ltac:(lia)) as Hb.
  unfold ensureCapacity. monad_simp. int_simp.
  replace (n >? len (buf r) - written r) with true
    by (symmetry; rewrite Z.gtb_ltb; apply Z.ltb_lt; exact Hn).
  replace (written r + n <? n) with false by (symmetry; apply Z.ltb_ge; lia).
  unfold irem.
  replace (growSize r =? 0) with false by (symmetry; apply Z.eqb_neq; lia).
  rewrite Z.rem_mod_nonneg by (simp_len; lia).
  pose proof (Z.mod_pos_bound (written r + n) (growSize r) ltac:(lia)).
  unfold grow_target in *. int_simp.
  unfold iadd at 1.
  rewrite wrap_above by lia. rewrite modulus_max_int.
  unfold growBuffer. monad_simp.
  match goal with
  | |- context [?x >? ?y] =>
      replace (x >? y) with false
        by (symmetry; rewrite Z.gtb_ltb; apply Z.ltb_ge; simp_len; lia)
  end.
  reflexivity.
Qed.

(** A write that fits in the free region. *)
Lemma Write_room (r : RingBuffer) (p : list byte) :
  wf a r -> 0 < len p <= cap r - written r ->
  exists b,
    Write a p r =
    Ret ((len p, None),
         {| buf := b; growSize := growSize r; readPos := readPos r;
            written := written r + len p |})
    /\ length b = length (buf r)
    /\ firstn (Z.to_nat (written r + len p))
              (skipn (Z.to_nat (readPos r)) b ++ b) = unread r ++ p.
Proof.
  intros Hwf Hn. pose proof Hwf as [Hc Hw Hr Hg].
  unfold Write.
  replace (len p =? 0) with false by (symmetry; apply Z.eqb_neq; lia).
  unfold bind at 1. rewrite ensureCapacity_room by (assumption || lia).
  unfold writeInfo. monad_simp.
  replace (written r =? len (buf r)) with false
    by (symmetry; apply Z.eqb_neq; simp_len; lia).
  int_simp.
  destruct (Z.ltb_spec (readPos r) (len (buf r) - written r)) as [L|L].
  - monad_simp. int_simp.
    destruct (Z.leb_spec (len p) (len (buf r) - (readPos r + written r))) as [L1|L1].
    + go. unfold advanceWritePos, set_buf, set_written. monad_simp. cbn.
      int_simp. eexists; split; [reflexivity|].
      split; [simp_len; lia | unfold unread; list_eq].
    + replace (if readPos r >? 0 then readPos r else 0) with (readPos r)
        by (rewrite Z.gtb_ltb; destruct (Z.ltb_spec 0 (readPos r)); lia).
      go. unfold advanceWritePos, set_buf, set_written. monad_simp. cbn.
      int_simp. eexists; split; [reflexivity|].
      split; [simp_len; lia | unfold unread; list_eq].
  - monad_simp.
    replace (len p <=? len (buf r) - written r) with true
      by (symmetry; apply Z.leb_le; simp_len; lia).
    go. unfold advanceWritePos, set_buf, set_written.
    monad_simp. cbn.
    int_simp. eexists; split; [reflexivity|].
    split; [simp_len; lia | unfold unread; list_eq].
Qed.

Lemma Write_empty (r : RingBuffer) : Write a [] r = Ret ((0, None), r).
Proof. reflexivity. Qed.

(** A write that has to grow first behaves as the write into the grown
    buffer. *)
Lemma Write_grow_eq (r : RingBuffer) (p : list byte) :
  wf a r -> cap r - written r < len p ->
  readPos r + written r <= max_int a ->
  grow_target r (len p) <= max_int a ->
  Write a p r = Write a p (grown r (grow_target r (len p))).
Proof.
  intros Hwf Hn He Ht. pose proof Hwf as [Hc Hw Hr Hg].
  pose proof (grow_target_bounds r (len p) ltac:(lia)) as Hb.
  assert (Hcap : cap r < grow_target r (len p)) by lia.
  unfold Write.
  replace (len p =? 0) with false by (symmetry; apply Z.eqb_neq; lia).
  cbv beta zeta iota.
  erewrite bind_ret by (apply ensureCapacity_grow; assumption).
  symmetry.
  erewrite bind_ret
    by (apply ensureCapacity_room;
        [ apply grown_wf; [assumption|lia]
        | rewrite cap_grown by assumption; cbn; lia ]).
  reflexivity.
Qed.

(** What a write does when its capacity computation stays in range. *)
Lemma Write_wf (r : RingBuffer) (p : list byte) :
  wf a r -> 0 < len p -> grow_in_range a r (len p) ->
  exists r',
    Write a p r = Ret ((len p, None), r')
    /\ wf a r'
    /\ unread r' = unread r ++ p
    /\ written r' = written r + len p
    /\ growSize r' = growSize r
    /\ cap r' = (if len p <=? cap r - written r then cap r
                 else grow_target r (len p))
    /\ readPos r' = (if len p <=? cap r - written r then readPos r else 0).
Proof.
  intros Hwf Hp Hin. pose proof Hwf as [Hc Hw Hr Hg].
  destruct (Z.leb_spec (len p) (cap r - written r)) as [L|L].
  - destruct (Write_room r p Hwf ltac:(lia)) as (b & HW & Hlen & Hun).
    eexists; split; [exact HW|].
    split; [split; unfold cap in *; cbn; simp_len; lia|].
    split; [exact Hun|]. cbn. unfold cap, len. cbn. rewrite Hlen. auto 6.
  - destruct Hin as [Hin|[He Ht]]; [lia|].
    pose proof (grow_target_bounds r (len p) ltac:(lia)) as Hb.
    assert (Hcap : cap r < grow_target r (len p)) by lia.
    pose proof (grown_wf r (grow_target r (len p)) Hwf ltac:(lia)) as Hwf'.
    rewrite Write_grow_eq by assumption.
    destruct (Write_room (grown r (grow_target r (len p))) p Hwf') as (b & HW & Hlen & Hun).
    { rewrite cap_grown by assumption. cbn. lia. }
    eexists; split; [exact HW|].
    assert (Hcb : len b = grow_target r (len p)).
    { rewrite <- (cap_grown r _ Hwf Hcap). unfold cap, len. now rewrite Hlen. }
    split; [split; unfold cap; cbn; lia|].
    split; [unfold unread at 1; cbn; cbn in Hun; rewrite Hun;
            now rewrite unread_grown by assumption|].
    cbn. auto.
Qed.

Lemma normalized_pow2 (hint : Z) :
  exists k, 4 <= k <= 20 /\ normalized hint = 2 ^ k.
Proof.
  unfold normalized.
  destruct (Z.leb_spec hint 15); [exists 4; split; [lia|reflexivity]|].
  destruct (Z.ltb_spec 1048576 hint); [exists 20; split; [lia|reflexivity]|].
  exists (Z.log2_up hint). split; [|reflexivity]. split.
  - destruct (Z.lt_ge_cases (Z.log2_up hint) 4) as [L|L]; [|assumption].
    pose proof (Z.log2_up_spec hint ltac:(lia)) as [_ Hu].
    assert (2 ^ Z.log2_up hint <= 2 ^ 3)
      by (apply Z.pow_le_mono_r; lia).
    change (2 ^ 3) with 8 in *. lia.
  - apply Z.log2_up_le_pow2; [lia|]. change (2 ^ 20) with 1048576. lia.
Qed.

Lemma normalized_least (hint : Z) :
  Z.max 16 (Z.min hint 1048576) <= normalized hint
  < 2 * Z.max 16 (Z.min hint 1048576).
Proof.
  unfold normalized.
  destruct (Z.leb_spec hint 15); [lia|].
  destruct (Z.ltb_spec 1048576 hint); [lia|].
  pose proof (Z.log2_up_spec hint ltac:(lia)) as [Hl Hu].
  replace (2 ^ Z.log2_up hint) with (2 * 2 ^ Z.pred (Z.log2_up hint)) in *.
  - lia.
  - rewrite <- Z.pow_succ_r.
    + f_equal. lia.
    + pose proof (Z.log2_up_pos hint ltac:(lia)). lia.
Qed.

Lemma Initialize_value (hint : Z) (r : RingBuffer) :
  Initialize a hint r =
  Ret (tt, {| buf := repeat x00 (Z.to_nat (normalized hint));
              growSize := normalized hint;
              readPos := readPos r;
              written := written r |}).
Proof.
  assert (E : (if hint <=? 15 then 16
               else if hint >? 1048576 then 1048576
               else iadd a (smear (isub a hint 1)) 1) = normalized hint).
  { unfold normalized. rewrite Z.gtb_ltb.
    destruct (Z.leb_spec hint 15); [reflexivity|].
    destruct (Z.ltb_spec 1048576 hint); [reflexivity|].
    int_simp.
    pose proof (normalized_pow2 hint) as (k & Hk & Ek).
    unfold normalized in Ek.
    replace (hint <=? 15) with false in Ek by (symmetry; apply Z.leb_gt; lia).
    replace (1048576 <? hint) with false in Ek by (symmetry; apply Z.ltb_ge; lia).
    pose proof (Z.log2_up_spec hint ltac:(lia)) as [Hl Hu].
    assert (Z.log2_up hint = k)
      by (apply (Z.pow_inj_r 2); try lia;
          pose proof (Z.log2_up_nonneg hint); lia).
    subst k.
    rewrite (smear_ones (hint - 1) (Z.log2_up hint)) by (replace (Z.log2_up hint - 1) with (Z.pred (Z.log2_up hint)) by lia; lia).
    rewrite Z.ones_equiv.
    assert (2 ^ Z.log2_up hint <= 2 ^ 20) by (apply Z.pow_le_mono_r; lia).
    change (2 ^ 20) with 1048576 in *.
    int_simp. lia. }
  unfold Initialize. cbv zeta. fold (smear (isub a hint 1)). rewrite E.
  pose proof (normalized_pow2 hint) as (k & Hk & Ek).
  assert (0 < normalized hint)
    by (rewrite Ek; apply Z.pow_pos_nonneg; lia).
  monad_simp. rewrite make_ok by lia. reflexivity.
Qed.

Lemma scan_list_app (S : Type) (fn : byte -> Z -> S -> outcome (bool * S))
    (l1 l2 : list byte) (idx : Z) (s : S) :
  scan_list fn (l1 ++ l2) idx s =
  obind (scan_list fn l1 idx s) (fun '(stop, s') =>
  if stop : bool then Ret (true, s') else scan_list fn l2 (idx + len l1) s').
Proof.
  revert idx s. induction l1 as [|x l1 IH]; intros idx s; cbn [app scan_list].
  - cbn. now rewrite Z.add_0_r.
  - destruct (fn x idx s) as [[[|] s']|]; cbn [obind]; try reflexivity.
    rewrite IH. unfold len. cbn [length]. 
    replace (idx + 1 + Z.of_nat (length l1))
      with (idx + Z.of_nat (Datatypes.S (length l1))) by lia.
    reflexivity.
Qed.

Lemma skipn_cons_nth (l : list byte) (i : nat) (x : byte) :
  nth_error l i = Some x -> skipn i l = x :: skipn (Datatypes.S i) l.
Proof.
  revert i. induction l as [|y l IH]; intros [|i] H; cbn in *; try discriminate.
  - now inversion H.
  - now apply IH.
Qed.

Lemma scan_loop_list (S : Type) (fn : byte -> Z -> S -> outcome (bool * S))
    (b : list byte) (ofs base : Z) (todo : nat) (idx : Z) (s : S) :
  0 <= ofs -> 0 <= base -> 0 <= idx ->
  ofs + idx + Z.of_nat todo <= len b -> len b <= max_int a ->
  base + idx + Z.of_nat todo <= max_int a ->
  scan_loop a fn b ofs base todo idx s =
  scan_list fn (firstn todo (skipn (Z.to_nat (ofs + idx)) b)) (base + idx) s.
Proof.
  revert idx s. induction todo as [|todo IH]; intros idx s Ho Hb Hi Hlen Hmax Hbase.
  - reflexivity.
  - cbn [scan_loop]. int_simp. unfold index.
    replace (0 <=? ofs + idx) with true by (symmetry; apply Z.leb_le; lia).
    replace (ofs + idx <? len b) with true by (symmetry; apply Z.ltb_lt; lia).
    cbn [andb].
    destruct (nth_error b (Z.to_nat (ofs + idx))) as [x|] eqn:E.
    + rewrite (skipn_cons_nth _ _ _ E). cbn [firstn scan_list obind].
      destruct (fn x (base + idx) s) as [[[|] s']|]; cbn [obind]; try reflexivity.
      rewrite IH by lia.
      replace (Z.to_nat (ofs + (idx + 1))) with (Datatypes.S (Z.to_nat (ofs + idx))) by lia.
      now replace (base + (idx + 1)) with (base + idx + 1) by lia.
    + apply nth_error_None in E. unfold len in *. lia.
Qed.

(** The two runs of the unread region. *)
Lemma unread_runs (r : RingBuffer) :
  wf a r ->
  let len1 := Z.min (written r) (cap r - readPos r) in
  unread r =
  firstn (Z.to_nat len1) (skipn (Z.to_nat (readPos r)) (buf r))
  ++ firstn (Z.to_nat (written r - len1)) (buf r).
Proof.
  intros [Hc Hw Hr Hg] len1. subst len1. unfold unread. list_eq.
Qed.

Lemma Scan_wf (S : Type) (fn : byte -> Z -> S -> outcome (bool * S)) (s : S)
    (r : RingBuffer) :
  wf a r ->
  Scan a fn s r =
  obind (scan_list fn (unread r) 0 s) (fun '(_, s') => Ret (s', r)).
Proof.
  intros Hwf. pose proof Hwf as [Hc Hw Hr Hg].
  unfold Scan. erewrite bind_ret by (apply readInfo_wf; assumption).
  rewrite (unread_runs r Hwf). cbv zeta.
  set (len1 := Z.min (written r) (cap r - readPos r)).
  assert (Hl : 0 <= len1 <= written r /\ len1 <= cap r - readPos r) by lia.
  clearbody len1. monad_simp.
  rewrite scan_list_app.
  rewrite scan_loop_list by (simp_len; lia).
  rewrite Z.add_0_r, Z.add_0_l.
  destruct (scan_list fn _ 0 s) as [[[|] s1]|]; cbn [obind]; try reflexivity.
  replace (len (firstn (Z.to_nat len1) (skipn (Z.to_nat (readPos r)) (buf r))))
    with len1 by (simp_len; lia).
  rewrite scan_loop_list by (simp_len; lia).
  rewrite Z.add_0_r. cbn [Z.to_nat].
  replace (skipn 0 (buf r)) with (buf r) by reflexivity.
  rewrite Z.add_0_r, Z.add_0_l.
  destruct (scan_list fn (firstn (Z.to_nat (written r - len1)) (buf r)) len1 s1)
    as [[c s2]|]; reflexivity.
Qed.

Lemma FindBytes_visit_list (b l : list byte) (idx : Z) (st : findState) :
  len b <= max_int a -> 0 <= currentOfs st < len b -> foundIdx st = -1 ->
  exists c st',
    scan_list (FindBytes_visit a b) l idx st = Ret (c, st')
    /\ foundIdx st' =
       stream_match b l idx (potentialStartIdx st) (Z.to_nat (currentOfs st)).
Proof.
  intros Hb. revert idx st.
  induction l as [|x l IH]; intros idx [f o ps] Ho Hf; cbn in Ho, Hf; subst f.
  - exists false, (mkFindState (-1) o ps). split; reflexivity.
  - cbn [scan_list stream_match currentOfs potentialStartIdx].
    unfold FindBytes_visit at 1. cbn [currentOfs potentialStartIdx foundIdx].
    unfold index.
    replace (0 <=? o) with true by (symmetry; apply Z.leb_le; lia).
    replace (o <? len b) with true by (symmetry; apply Z.ltb_lt; lia).
    cbn [andb].
    destruct (nth_error b (Z.to_nat o)) as [t|] eqn:E;
      [|apply nth_error_None in E; unfold len in *; lia].
    cbn [obind]. int_simp.
    destruct (Byte.eqb x t).
    + replace (Nat.eqb (Z.to_nat o) 0) with (o =? 0)
        by (destruct (Z.eqb_spec o 0), (Nat.eqb_spec (Z.to_nat o) 0); lia || reflexivity).
      replace (Nat.eqb (Datatypes.S (Z.to_nat o)) (length b)) with (o + 1 =? len b)
        by (unfold len; destruct (Z.eqb_spec (o + 1) (Z.of_nat (length b))),
              (Nat.eqb_spec (Datatypes.S (Z.to_nat o)) (length b)); lia || reflexivity).
      destruct (Z.eqb_spec (o + 1) (len b)) as [E1|E1]; cbn [obind].
      * eexists _, _. split; reflexivity.
      * destruct (IH (idx + 1) (mkFindState (-1) (o + 1)
                                 (if o =? 0 then idx else ps)))
          as (c & st' & Hs & Hr); cbn; try lia.
        exists c, st'. split; [exact Hs|].
        rewrite Hr. cbn. now replace (Z.to_nat (o + 1)) with (Datatypes.S (Z.to_nat o)) by lia.
    + cbn [obind].
      destruct (IH (idx + 1) (mkFindState (-1) 0 ps)) as (c & st' & Hs & Hr);
        cbn; try lia.
      exists c, st'. split; [exact Hs|]. rewrite Hr. reflexivity.
Qed.

Lemma FindBytes_wf (r : RingBuffer) (b : list byte) :
  wf a r -> len b <= max_int a ->
  FindBytes a b r = Ret (find_sequence b (unread r), r).
Proof.
  intros Hwf Hb. unfold FindBytes, find_sequence.
  destruct b as [|x b]; [reflexivity|].
  replace (len (x :: b) =? 0) with false
    by (symmetry; apply Z.eqb_neq; unfold len; cbn [length]; lia).
  unfold bind. rewrite Scan_wf by assumption.
  destruct (FindBytes_visit_list (x :: b) (unread r) 0 (mkFindState (-1) 0 (-1)))
    as (c & st' & Hs & Hr); cbn [currentOfs foundIdx]; try assumption.
  { unfold len; cbn [length]; lia. }
  { reflexivity. }
  rewrite Hs. cbn [obind]. unfold ret. now rewrite Hr.
Qed.

(** *** The write whose target size wraps around

    When [written + len p] is representable but the round-up to the next
    multiple of the quantum is not, [newSize] is negative, [growBuffer]
    does nothing and [ensureCapacity] reports no error: [Write] stores what
    fits, adds [len p] to [written] and returns [len p] and no error. *)

Lemma Write_wrapped_target (r : RingBuffer) (p : list byte) :
  wf a r -> readPos r = 0 -> cap r - written r < len p ->
  written r + len p <= max_int a -> max_int a < grow_target r (len p) ->
  Write a p r =
  Ret ((len p, None),
       {| buf := firstn (Z.to_nat (written r)) (buf r)
                 ++ firstn (Z.to_nat (cap r - written r)) p;
          growSize := growSize r;
          readPos := 0;
          written := written r + len p |}).
Proof.
  intros Hwf Hrp Hn Hreq Ht. pose proof Hwf as [Hc Hw Hr Hg].
  unfold Write.
  replace (len p =? 0) with false by (symmetry; apply Z.eqb_neq; lia).
  cbv beta zeta iota.
  erewrite bind_ret by (apply ensureCapacity_wrapped_target; assumption).
  unfold writeInfo. monad_simp. rewrite Hrp.
  destruct (Z.eqb_spec (written r) (len (buf r))) as [E|E].
  - monad_simp.
    replace (len p <=? 0) with false by (symmetry; apply Z.leb_gt; lia).
    go. unfold advanceWritePos, set_buf, set_written. monad_simp.
    cbn [buf growSize readPos written]. int_simp. rewrite Hrp.
    do 3 f_equal. list_eq.
  - int_simp.
    replace (0 <? len (buf r) - written r) with true
      by (symmetry; apply Z.ltb_lt; simp_len; lia).
    monad_simp. int_simp.
    replace (len p <=? len (buf r) - (0 + written r)) with false
      by (symmetry; apply Z.leb_gt; simp_len; lia).
    replace (0 >? 0) with false by reflexivity.
    go. unfold advanceWritePos, set_buf, set_written. monad_simp.
    cbn [buf growSize readPos written]. int_simp. rewrite Hrp.
    do 3 f_equal. list_eq.
Qed.

(** A read of [cap r] bytes from a buffer whose count exceeds its
    capacity. *)
Lemma Read_overfull (r : RingBuffer) (d : list byte) :
  0 < cap r <= max_int a -> readPos r = 0 ->
  cap r < written r <= max_int a -> len d = cap r ->
  Read a d r =
  Ret ((buf r, cap r, None),
       {| buf := buf r; growSize := growSize r; readPos := 0;
          written := written r - cap r |}).
Proof.
  intros Hc Hrp Hw Hd.
  unfold Read, peek.
  replace (len d =? 0) with false by (symmetry; apply Z.eqb_neq; lia).
  unfold readInfo. monad_simp. rewrite Hrp. int_simp.
  replace (0 <=? len (buf r) - written r) with false
    by (symmetry; apply Z.leb_gt; simp_len; lia).
  monad_simp. int_simp.
  replace (len (buf r) - 0 =? 0) with false
    by (symmetry; apply Z.eqb_neq; simp_len; lia).
  cbn [andb].
  replace (len d <=? len (buf r) - 0) with true
    by (symmetry; apply Z.leb_le; simp_len; lia).
  go. unfold advanceReadPos. monad_simp. rewrite Hrp. int_simp.
  replace (0 <? len (buf r) - len d) with false
    by (symmetry; apply Z.ltb_ge; simp_len; lia).
  monad_simp. unfold set_readPos, set_written.
  cbn [buf growSize readPos written]. int_simp.
  replace (overwrite d 0
             (firstn (Z.to_nat (len d - 0))
                (firstn (Z.to_nat (0 + len d - 0)) (skipn (Z.to_nat 0) (buf r)))))
    with (buf r) by list_eq.
  rewrite Hd. unfold cap.
  replace (0 - (len (buf r) - len (buf r))) with 0 by lia.
  reflexivity.
Qed.

(** *** Sequences of calls *)

Lemma Write_any (r : RingBuffer) (p : list byte) :
  wf a r -> grow_in_range a r (len p) ->
  exists r',
    Write a p r = Ret ((len p, None), r')
    /\ wf a r'
    /\ unread r' = unread r ++ p
    /\ written r' = written r + len p
    /\ growSize r' = growSize r
    /\ cap r <= cap r'.
Proof.
  intros Hwf Hin. destruct p as [|x p].
  - exists r. rewrite Write_empty, app_nil_r. cbn. repeat split; try lia; apply Hwf.
  - destruct (Write_wf r (x :: p) Hwf) as (r' & HW & Hwf' & Hu & Hw & Hg & Hc & _);
      [unfold len; cbn [length]; lia | assumption |].
    exists r'. repeat split; try assumption; try apply Hwf'.
    rewrite Hc. destruct (Z.leb_spec (len (x :: p)) (cap r - written r)); [lia|].
    pose proof (grow_target_bounds r (len (x :: p))).
    destruct Hwf. lia.
Qed.

Lemma Writes_wf (ps : list (list byte)) (r : RingBuffer) :
  wf a r -> writes_in_range a ps r ->
  exists r',
    Writes a ps r = Ret (map (fun p => (len p, None)) ps, r')
    /\ wf a r'
    /\ unread r' = unread r ++ concat ps
    /\ cap r <= cap r'.
Proof.
  revert r. induction ps as [|p ps IH]; intros r Hwf Hin.
  - exists r. cbn. rewrite app_nil_r. repeat split; try lia; apply Hwf.
  - destruct Hin as [Hin Hrest].
    destruct (Write_any r p Hwf Hin) as (r1 & HW & Hwf1 & Hu & _ & _ & Hc).
    destruct (IH r1 Hwf1 (Hrest _ _ HW)) as (r2 & HWs & Hwf2 & Hu2 & Hc2).
    exists r2. cbn [Writes map concat]. unfold bind. rewrite HW, HWs.
    repeat split; try assumption; try apply Hwf2; try lia.
    now rewrite Hu2, Hu, app_assoc.
Qed.

Lemma Reads_wf (ds : list (list byte)) (r : RingBuffer) :
  wf a r ->
  exists ys r',
    Reads a ds r = Ret (ys, r')
    /\ wf a r'
    /\ concat (map returned ys) ++ unread r' = unread r
    /\ buf r' = buf r.
Proof.
  revert r. induction ds as [|d ds IH]; intros r Hwf.
  - exists [], r. repeat split; try apply Hwf.
  - destruct (Read_wf r d Hwf) as (d' & HR & Hlen & Hpre).
    set (n := Z.min (len d) (written r)) in *.
    pose proof Hwf as [Hc Hw Hr Hg]. pose proof (len_nonneg d).
    assert (Hn : 0 <= n <= written r) by lia.
    destruct (IH (advance r n) (advance_wf r n Hwf Hn)) as (ys & r' & HRs & Hwf' & Hcat & Hb).
    exists ((d', n, peek_err r d) :: ys), r'.
    cbn [Reads]. unfold bind. rewrite HR, HRs.
    repeat split; try apply Hwf'; [|rewrite Hb; reflexivity].
    cbn [map concat returned]. rewrite <- app_assoc, Hcat, Hpre.
    rewrite unread_advance by assumption.
    apply firstn_skipn.
Qed.

Lemma New_value (hint : Z) :
  New a hint =
  Ret {| buf := repeat x00 (Z.to_nat (normalized hint));
         growSize := normalized hint;
         readPos := 0;
         written := 0 |}.
Proof. unfold New. now rewrite Initialize_value. Qed.

Lemma New_wf (hint : Z) (r : RingBuffer) : New a hint = Ret r -> wf a r.
Proof.
  rewrite New_value. intros H. inversion H; subst; clear H.
  pose proof (normalized_pow2 hint) as (k & Hk & Ek).
  assert (16 <= 2 ^ k <= 1048576).
  { change 16 with (2 ^ 4). change 1048576 with (2 ^ 20).
    split; apply Z.pow_le_mono_r; lia. }
  int_facts.
  split; unfold cap; cbn [buf growSize readPos written]; simp_len; lia.
Qed.

(** The free region as [writeInfo] reports it: it starts right after the
    content, runs to the end of the storage or for as many cells as are
    free, and goes on from offset 0. *)
Lemma writeInfo_wf (r : RingBuffer) :
  wf a r ->
  let ofs1 := if written r =? cap r then 0
              else (readPos r + written r) mod cap r in
  let len1 := if written r =? cap r then 0
              else Z.min (cap r - written r) (cap r - ofs1) in
  writeInfo a r = Ret ((ofs1, len1, cap r - written r - len1), r).
Proof.
  intros [Hc Hw Hr Hg]. unfold writeInfo. monad_simp. fold (cap r).
  destruct (Z.eqb_spec (written r) (cap r)) as [E|E].
  - cbv zeta. ret_eq.
  - cbv zeta. int_simp.
    destruct (Z.ltb_spec (readPos r) (cap r - written r)) as [L|L].
    + rewrite (Z.mod_small (readPos r + written r)) by lia.
      int_simp. rewrite Z.gtb_ltb.
      destruct (Z.ltb_spec 0 (readPos r)); ret_eq.
    + assert (Em : (readPos r + written r) mod cap r
                   = readPos r + written r - cap r).
      { symmetry. apply (Z.mod_unique _ _ 1); lia. }
      rewrite Em. ret_eq.
Qed.

Lemma readPos_advance (r : RingBuffer) (n : Z) :
  wf a r -> 0 <= n <= written r ->
  readPos (advance r n) = (readPos r + n) mod cap r.
Proof.
  intros [Hc Hw Hr Hg] Hn. unfold advance. cbn [readPos].
  destruct (Z.ltb_spec (readPos r + n) (cap r)).
  - now rewrite Z.mod_small by lia.
  - apply (Z.mod_unique _ _ 1); lia.
Qed.


(** A write whose target size wraps around, wherever the content starts:
    nothing grows, the free cells receive the first bytes of [p], and the
    count is advanced by all of [len p]. *)
Lemma Write_wrapped_target_any (r : RingBuffer) (p : list byte) :
  wf a r -> cap r - written r < len p ->
  written r + len p <= max_int a -> max_int a < grow_target r (len p) ->
  exists b,
    Write a p r =
    Ret ((len p, None),
         {| buf := b; growSize := growSize r; readPos := readPos r;
            written := written r + len p |})
    /\ length b = length (buf r)
    /\ firstn (length b) (skipn (Z.to_nat (readPos r)) b ++ b)
       = unread r ++ firstn (Z.to_nat (cap r - written r)) p.
Proof.
  intros Hwf Hn Hreq Ht. pose proof Hwf as [Hc Hw Hr Hg].
  unfold Write.
  replace (len p =? 0) with false by (symmetry; apply Z.eqb_neq; lia).
  cbv beta zeta iota.
  erewrite bind_ret by (apply ensureCapacity_wrapped_target; assumption).
  cbv beta iota.
  pose proof (writeInfo_wf r Hwf) as HI. cbv zeta in HI.
  erewrite bind_ret by exact HI. clear HI.
  cbv beta iota. fold (cap r).
  destruct (Z.eqb_spec (written r) (cap r)) as [E|E].
  - monad_simp.
    replace (len p <=? 0) with false by (symmetry; apply Z.leb_gt; lia).
    replace (cap r - written r - 0) with 0 by lia.
    go. unfold advanceWritePos, set_buf, set_written. monad_simp.
    cbn [buf growSize readPos written]. int_simp.
    eexists; split; [reflexivity|].
    split; [simp_len; lia|].
    change (Z.to_nat (0 - 0)) with 0%nat.
    rewrite !firstn_O, !firstn_nil, !overwrite_nil.
    unfold unread. rewrite E.
    replace (Z.to_nat (cap r - cap r)) with 0%nat by lia.
    rewrite firstn_O, app_nil_r. f_equal. unfold cap, len. lia.
  - destruct (Z.ltb_spec (readPos r + written r) (cap r)) as [L|L].
    + rewrite (Z.mod_small (readPos r + written r)) by lia.
      replace (Z.min (cap r - written r) (cap r - (readPos r + written r)))
        with (cap r - (readPos r + written r)) by lia.
      replace (cap r - written r - (cap r - (readPos r + written r)))
        with (readPos r) by lia.
      monad_simp.
      replace (len p <=? cap r - (readPos r + written r)) with false
        by (symmetry; apply Z.leb_gt; lia).
      go. unfold advanceWritePos, set_buf, set_written. monad_simp.
      cbn [buf growSize readPos written]. int_simp.
      eexists; split; [reflexivity|].
      split; [simp_len; lia|].
      clear Hwf Hc Hg Hreq Ht H H0. unfold unread. list_eq.
    + assert (Em : (readPos r + written r) mod cap r
                   = readPos r + written r - cap r).
      { symmetry. apply (Z.mod_unique _ _ 1); lia. }
      rewrite Em.
      replace (Z.min (cap r - written r)
                 (cap r - (readPos r + written r - cap r)))
        with (cap r - written r) by lia.
      replace (cap r - written r - (cap r - written r)) with 0 by lia.
      monad_simp.
      replace (len p <=? cap r - written r) with false
        by (symmetry; apply Z.leb_gt; lia).
      go. unfold advanceWritePos, set_buf, set_written. monad_simp.
      cbn [buf growSize readPos written]. int_simp.
      eexists; split; [reflexivity|].
      split; [simp_len; lia|].
      change (Z.to_nat (0 - 0)) with 0%nat.
      rewrite !firstn_O, !overwrite_nil.
      clear Hwf Hc Hg Hreq Ht H H0 Em. unfold unread. list_eq.
Qed.

End Facts.

(** ** A run on a 32-bit target in which the target size wraps around *)

Lemma max_int_32 : max_int Arch32 = 2147483647.
Proof. reflexivity. Qed.

Section WrappedRun.

Variables c1 c2 : list byte.

Hypothesis len_c1 : len c1 = 1073741808.

Hypothesis len_c2 : len c2 = 1073741824.

Lemma run_first_write :
  exists r0 r1,
    New Arch32 16 = Ret r0
    /\ Write Arch32 c1 r0 = Ret ((len c1, None), r1)
    /\ wf Arch32 r1
    /\ readPos r1 = 0
    /\ written r1 = 1073741808
    /\ cap r1 = 1073741824
    /\ growSize r1 = 16
    /\ firstn (Z.to_nat 1073741808) (buf r1) = c1.
Proof.
  pose proof (New_value Arch32 16) as HN.
  change (normalized 16) with 16 in HN.
  set (r0 := {| buf := repeat x00 (Z.to_nat 16); growSize := 16;
                readPos := 0; written := 0 |}) in *.
  pose proof (New_wf Arch32 16 r0 HN) as Hwf0.
  assert (Hc0 : cap r0 = 16)
    by (unfold cap, len, r0; cbn [buf]; rewrite repeat_length; lia).
  assert (Ht : grow_target r0 (len c1) = 1073741824)
    by (unfold grow_target; rewrite len_c1; reflexivity).
  destruct (Write_wf Arch32 r0 c1 Hwf0) as (r1 & HW & Hwf1 & Hu & Hw & Hg & Hc & Hr).
  - lia.
  - right. rewrite Ht, max_int_32. cbn [readPos written r0]. lia.
  - exists r0, r1.
    replace (len c1 <=? cap r0 - written r0) with false in *
      by (symmetry; apply Z.leb_gt; rewrite Hc0, len_c1; cbn [written r0]; lia).
    split; [exact HN|]. split; [exact HW|]. split; [exact Hwf1|].
    split; [exact Hr|]. split; [rewrite Hw, len_c1; reflexivity|].
    split; [now rewrite Hc, Ht|]. split; [exact Hg|].
    pose proof Hwf1 as [Hc1 Hw1 Hr1 Hg1].
    assert (E : unread r0 = []) by reflexivity.
    rewrite E in Hu. cbn [app] in Hu. rewrite <- Hu.
    unfold unread. rewrite Hr, Hw, len_c1. cbn [written r0].
    rewrite Hw, Hc, Ht, len_c1 in *. cbn [written r0] in *.
    list_eq.
Qed.

(** The second write: the target size 2^31 wraps around, nothing grows,
    and the call still reports all of its bytes written. *)
Lemma run_second_write :
  exists r0 r1 r2,
    New Arch32 16 = Ret r0
    /\ Write Arch32 c1 r0 = Ret ((len c1, None), r1)
    /\ wf Arch32 r1
    /\ (cap r1 = 1073741824 /\ written r1 = 1073741808
        /\ written r1 + len c2 <= max_int Arch32)
    /\ Write Arch32 c2 r1 = Ret ((len c2, None), r2)
    /\ buf r2 = c1 ++ firstn (Z.to_nat 16) c2
    /\ growSize r2 = 16
    /\ readPos r2 = 0
    /\ written r2 = 2147483632
    /\ cap r2 = 1073741824.
Proof.
  destruct run_first_write as (r0 & r1 & HN & HW1 & Hwf1 & Hr1 & Hw1 & Hc1 & Hg1 & Hb1).
  exists r0, r1.
  assert (Ht : grow_target r1 (len c2) = 2147483648)
    by (unfold grow_target; rewrite len_c2, Hw1, Hg1; reflexivity).
  pose proof (Write_wrapped_target Arch32 r1 c2 Hwf1 Hr1) as HW2.
  rewrite Ht, Hc1, Hw1, len_c2, max_int_32, Hg1, Hb1 in HW2.
  specialize (HW2 ltac:(lia) ltac:(lia) ltac:(lia)).
  eexists. split; [exact HN|]. split; [exact HW1|]. split; [exact Hwf1|].
  split; [split; [exact Hc1|split; [exact Hw1|rewrite Hw1, len_c2, max_int_32; lia]]|].
  rewrite len_c2. split; [exact HW2|].
  cbn [buf growSize readPos written].
  split; [reflexivity|]. split; [reflexivity|]. split; [reflexivity|].
  split; [reflexivity|].
  unfold cap. cbn [buf]. pose proof len_c1 as L1. pose proof len_c2 as L2.
  unfold len in L1, L2 |- *. rewrite length_app, length_firstn. lia.
Qed.

Variables d1 d2 : list byte.

Hypothesis len_d1 : len d1 = 1073741824.

Hypothesis len_d2 : len d2 = 1073741808.

(** Reading everything back, 2^30 and then 2^30 - 16 bytes. *)
Lemma run_reads :
  exists r0 r1 r2 r3 r4 out1 out2,
    New Arch32 16 = Ret r0
    /\ Write Arch32 c1 r0 = Ret ((len c1, None), r1)
    /\ Write Arch32 c2 r1 = Ret ((len c2, None), r2)
    /\ Read Arch32 d1 r2 = Ret ((out1, len d1, None), r3)
    /\ Read Arch32 d2 r3 = Ret ((out2, len d2, None), r4)
    /\ written r4 = 0
    /\ len out1 = len d1 /\ len out2 = len d2
    /\ out1 ++ out2 = (c1 ++ firstn (Z.to_nat 16) c2) ++ c1.
Proof.
  destruct run_second_write
    as (r0 & r1 & r2 & HN & HW1 & Hwf1 & _ & HW2 & Hb2 & Hg2 & Hr2 & Hw2 & Hc2).
  pose proof (Read_overfull Arch32 r2 d1) as HR1.
  rewrite Hc2, Hw2, max_int_32, Hg2 in HR1.
  specialize (HR1 ltac:(lia) Hr2 ltac:(lia) len_d1).
  set (r3 := {| buf := buf r2; growSize := 16; readPos := 0;
                written := 2147483632 - 1073741824 |}) in *.
  assert (Hwf3 : wf Arch32 r3).
  { split; unfold r3, cap in *; cbn [buf growSize readPos written];
      rewrite ?max_int_32; lia. }
  destruct (Read_wf Arch32 r3 d2 Hwf3) as (out2 & HR2 & Hl2 & Hpre).
  assert (Hn : Z.min (len d2) (written r3) = len d2)
    by (rewrite len_d2; reflexivity).
  rewrite Hn in *.
  assert (He : peek_err r3 d2 = None)
    by (unfold peek_err; rewrite len_d2; reflexivity).
  rewrite He in HR2.
  exists r0, r1, r2, r3, (advance r3 (len d2)), (buf r2), out2.
  split; [exact HN|]. split; [exact HW1|]. split; [exact HW2|].
  split; [rewrite len_d1; exact HR1|]. split; [exact HR2|].
  split; [unfold advance; cbn [written]; unfold r3; cbn [written];
          rewrite len_d2; reflexivity|].
  split; [fold (cap r2); now rewrite Hc2, len_d1|].
  split; [unfold len; now rewrite Hl2|].
  f_equal; [exact Hb2|].
  assert (Hout : out2 = firstn (Z.to_nat (len d2)) out2)
    by (symmetry; apply firstn_all2; unfold len in *; lia).
  rewrite Hout, Hpre. unfold unread, r3. cbn [buf readPos written].
  rewrite Hb2, len_d2. list_eq.
Qed.

Hypothesis differ : nth_error c1 0 <> nth_error c2 16.

Lemma run_not_fifo : (c1 ++ firstn (Z.to_nat 16) c2) ++ c1 <> c1 ++ c2.
Proof.
  intros E.
  apply (f_equal (fun l => nth_error l (Z.to_nat 1073741824))) in E.
  pose proof len_c1 as L1. pose proof len_c2 as L2. unfold len in L1, L2.
  rewrite !nth_error_app, length_app, length_firstn in E.
  replace (Z.to_nat 1073741824 <? length c1 + Init.Nat.min (Z.to_nat 16) (length c2))%nat
    with false in E by (symmetry; apply Nat.ltb_ge; lia).
  replace (Z.to_nat 1073741824 <? length c1)%nat
    with false in E by (symmetry; apply Nat.ltb_ge; lia).
  replace (Z.to_nat 1073741824 - (length c1 + Init.Nat.min (Z.to_nat 16) (length c2)))%nat
    with 0%nat in E by lia.
  replace (Z.to_nat 1073741824 - length c1)%nat with 16%nat in E by lia.
  exact (differ E).
Qed.

End WrappedRun.

Lemma len_first_chunk : len first_chunk = 1073741808.
Proof. unfold len, first_chunk. rewrite repeat_length. lia. Qed.

Lemma len_second_chunk : len second_chunk = 1073741824.
Proof. unfold len, second_chunk. rewrite repeat_length. lia. Qed.

Lemma len_zeros (n : Z) : 0 <= n -> len (zeros n) = n.
Proof. intros H. unfold len, zeros. rewrite repeat_length. lia. Qed.

Lemma chunks_differ : nth_error first_chunk 0 <> nth_error second_chunk 16.
Proof.
  unfold first_chunk, second_chunk.
  rewrite !nth_error_repeat by lia. discriminate.
Qed.

(** C1: on a 32-bit target the bytes read back are not the bytes written.
    After [New(16)], a write of 2^30 - 16 bytes of 1 and a write of 2^30
    bytes of 2 both return their full count and no error; two reads, of
    2^30 and of 2^30 - 16 bytes, then consume everything ([written] ends at
    0) and hand back the first chunk, sixteen bytes of the second chunk and
    the first chunk again, which is not the two chunks in the order written.
    (When every capacity computation stays in range the order is kept:
    [Writes_Reads_fifo].) *)
Theorem fifo_broken_by_wrapped_target :
  exists r0 r1 r2 r3 r4 out1 out2,
    New Arch32 16 = Ret r0
    /\ Write Arch32 first_chunk r0 = Ret ((len first_chunk, None), r1)
    /\ Write Arch32 second_chunk r1 = Ret ((len second_chunk, None), r2)
    /\ Read Arch32 (zeros 1073741824) r2 = Ret ((out1, 1073741824, None), r3)
    /\ Read Arch32 (zeros 1073741808) r3 = Ret ((out2, 1073741808, None), r4)
    /\ written r4 = 0
    /\ returned (out1, 1073741824, None) ++ returned (out2, 1073741808, None)
       = (first_chunk ++ firstn (Z.to_nat 16) second_chunk) ++ first_chunk
    /\ returned (out1, 1073741824, None) ++ returned (out2, 1073741808, None)
       <> first_chunk ++ second_chunk.
Proof.
  pose proof (len_zeros 1073741824 ltac:(lia)) as Hd1.
  pose proof (len_zeros 1073741808 ltac:(lia)) as Hd2.
  destruct (run_reads first_chunk second_chunk len_first_chunk len_second_chunk
              (zeros 1073741824) (zeros 1073741808) Hd1 Hd2)
    as (r0 & r1 & r2 & r3 & r4 & out1 & out2
        & HN & HW1 & HW2 & HR1 & HR2 & Hw4 & Hl1 & Hl2 & Hout).
  rewrite Hd1 in HR1, Hl1. rewrite Hd2 in HR2, Hl2.
  exists r0, r1, r2, r3, r4, out1, out2.
  split; [exact HN|]. split; [exact HW1|]. split; [exact HW2|].
  split; [exact HR1|]. split; [exact HR2|]. split; [exact Hw4|].
  assert (E1 : returned (out1, 1073741824, None) = out1)
    by (unfold returned; apply firstn_all2; unfold len in Hl1; lia).
  assert (E2 : returned (out2, 1073741808, None) = out2)
    by (unfold returned; apply firstn_all2; unfold len in Hl2; lia).
  rewrite E1, E2, Hout. split; [reflexivity|].
  exact (run_not_fifo first_chunk second_chunk len_first_chunk len_second_chunk
           chunks_differ).
Qed.

(** ** Small concrete buffers *)

(** Bounds of closed terms, by evaluation. *)
Ltac by_evaluation :=
  repeat split; vm_compute; try reflexivity; try discriminate.

(** ** Construction *)

(** C6: for every requested size, [New] returns a buffer whose capacity and
    quantum are both [normalized hint] (16 up to 15, 1,048,576 above
    1,048,576, otherwise the request rounded up to a power of two), with
    both counters at 0; the quantum is a power of two between 16 and
    1,048,576, and it is the one that is at least the clamped request and
    less than twice it. *)
Theorem New_normalizes (a : arch) (hint : Z) :
  exists r,
    New a hint = Ret r
    /\ buf r = repeat x00 (Z.to_nat (normalized hint))
    /\ cap r = normalized hint
    /\ growSize r = normalized hint
    /\ readPos r = 0
    /\ written r = 0
    /\ normalized hint =
       (if hint <=? 15 then 16
        else if 1048576 <? hint then 1048576
        else 2 ^ Z.log2_up hint)
    /\ (exists k, 4 <= k <= 20 /\ normalized hint = 2 ^ k)
    /\ Z.max 16 (Z.min hint 1048576) <= normalized hint
       < 2 * Z.max 16 (Z.min hint 1048576).
Proof.
  eexists. split; [apply New_value|]. cbn [buf growSize readPos written].
  pose proof (normalized_pow2 hint) as (k & Hk & Ek).
  assert (0 < normalized hint) by (rewrite Ek; apply Z.pow_pos_nonneg; lia).
  repeat split; try reflexivity.
  - unfold cap, len. cbn [buf]. rewrite repeat_length. lia.
  - exists k. split; assumption.
  - apply normalized_least.
  - apply normalized_least.
Qed.

(** C10: [Initialize] replaces the storage by a zeroed array of the
    normalized size and sets the quantum, and leaves [readPos] and
    [written] as they were; re-initializing with 16 a buffer that has grown
    to 64 bytes and holds 50 gives [written = 50] over a capacity of 16,
    outside the invariant; [New] always starts with both counters at 0. *)
Theorem Initialize_keeps_cursors :
  (forall a hint r,
      exists r',
        Initialize a hint r = Ret (tt, r')
        /\ buf r' = repeat x00 (Z.to_nat (normalized hint))
        /\ growSize r' = normalized hint
        /\ readPos r' = readPos r
        /\ written r' = written r)
  /\ (exists r1 r2,
        obind (New Arch64 16)
              (fun r0 => Write Arch64 (repeat x01 50) r0) = Ret ((50, None), r1)
        /\ cap r1 = 64 /\ written r1 = 50 /\ wf Arch64 r1
        /\ Initialize Arch64 16 r1 = Ret (tt, r2)
        /\ cap r2 = 16 /\ written r2 = 50 /\ ~ wf Arch64 r2)
  /\ (forall a hint,
        exists r, New a hint = Ret r /\ readPos r = 0 /\ written r = 0).
Proof.
  split; [|split].
  - intros a hint r. eexists. split; [apply Initialize_value|].
    cbn. repeat split.
  - eexists. eexists.
    split; [vm_compute; reflexivity|].
    split; [reflexivity|]. split; [reflexivity|].
    split; [pose proof (max_int_lower Arch64); split; unfold cap, len; cbn; lia|].
    split; [vm_compute; reflexivity|].
    split; [reflexivity|]. split; [reflexivity|].
    intros [_ [_ H] _ _]. vm_compute in H. apply H. reflexivity.
  - intros a hint. eexists. split; [apply New_value|]. split; reflexivity.
Qed.

(** ** Reading from an empty buffer *)

(** C3, as stated, fails: on the empty buffer [New(16)] a [Peek] or [Read]
    with an empty destination returns count 0 and no error, not [io.EOF]. *)
Lemma empty_destination_no_EOF :
  New Arch64 16 = Ret fresh16
  /\ written fresh16 = 0
  /\ Peek Arch64 [] fresh16 = Ret (([], 0, None), fresh16)
  /\ Read Arch64 [] fresh16 = Ret (([], 0, None), fresh16).
Proof. repeat split; vm_compute; reflexivity. Qed.

(** C3, amended: on a buffer holding zero unread bytes, [Peek] and [Read]
    return count 0, leave the destination and the buffer as they were, and
    signal [io.EOF] when the destination is not empty; with an empty
    destination they return no error. *)
Theorem empty_read_signal (a : arch) (r : RingBuffer) (p : list byte) :
  wf a r -> written r = 0 ->
  Peek a p r = Ret ((p, 0, if len p =? 0 then None else Some EOF), r)
  /\ Read a p r = Ret ((p, 0, if len p =? 0 then None else Some EOF), r).
Proof.
  intros Hwf Hw.
  assert (Hpk : peek a p r
                = Ret ((p, 0, if len p =? 0 then None else Some EOF), r)).
  { unfold peek. destruct (Z.eqb_spec (len p) 0) as [E|E]; [reflexivity|].
    erewrite bind_ret by (apply readInfo_wf; assumption).
    pose proof Hwf as [Hc _ Hr _]. rewrite Hw.
    replace (Z.min 0 (cap r - readPos r)) with 0 by lia.
    reflexivity. }
  split; [exact Hpk|].
  unfold Read. erewrite bind_ret by exact Hpk. cbv beta iota.
  destruct (len p =? 0); [|reflexivity].
  erewrite bind_ret
    by (apply advanceReadPos_wf; [assumption | rewrite Hw; lia]).
  now rewrite (advance_0 a) by assumption.
Qed.

Lemma empty_read_signal_witness :
  (wf Arch64 fresh16 /\ written fresh16 = 0)
  /\ Peek Arch64 [x00; x00] fresh16 = Ret (([x00; x00], 0, Some EOF), fresh16)
  /\ Read Arch64 [x00; x00] fresh16 = Ret (([x00; x00], 0, Some EOF), fresh16).
Proof.
  split.
  - by_evaluation.
  - apply (empty_read_signal Arch64 fresh16 [x00; x00]).
    + by_evaluation.
    + reflexivity.
Defined.

(** ** The searches *)

(** C8: on every well-formed buffer and for every target (a Go slice),
    [FindBytes] returns what the streaming match of the spec returns on the
    unread content, and leaves the buffer as it was; on an empty target
    that is -1. *)
Theorem FindBytes_refines (a : arch) (r : RingBuffer) (b : list byte) :
  wf a r -> len b <= max_int a ->
  FindBytes a b r = Ret (find_sequence b (unread r), r)
  /\ find_sequence [] (unread r) = -1.
Proof.
  intros Hwf Hb. split; [now apply FindBytes_wf | reflexivity].
Qed.

Lemma FindBytes_refines_witness :
  (wf Arch64 holds_aab /\ len ab <= max_int Arch64)
  /\ FindBytes Arch64 ab holds_aab
     = Ret (find_sequence ab (unread holds_aab), holds_aab)
  /\ find_sequence [] (unread holds_aab) = -1.
Proof.
  split.
  - by_evaluation.
  - apply (FindBytes_refines Arch64 holds_aab ab).
    + by_evaluation.
    + by_evaluation.
Defined.

(** C9: with the unread content "aab" the target "ab" occurs at logical
    index 1, and [FindBytes] returns -1: after the mismatch at index 1 the
    mismatching byte is not compared with the first byte of the target. *)
Theorem FindBytes_misses_aab (a : arch) :
  obind (New a 16) (fun r0 => Write a aab r0) = Ret ((3, None), holds_aab)
  /\ unread holds_aab = aab
  /\ ab <> []
  /\ firstn (length ab) (skipn 1 (unread holds_aab)) = ab
  /\ FindBytes a ab holds_aab = Ret (-1, holds_aab).
Proof.
  destruct a; repeat split; try discriminate; vm_compute; reflexivity.
Qed.

(** ** Growth *)

(** C5, as stated, fails: a write of 32 bytes into the empty [New(16)]
    needs 32 bytes, already a multiple of the quantum 16, and the buffer
    grows to 48 bytes, not to 32. *)
Lemma growth_adds_a_full_quantum :
  exists r1,
    Write Arch64 (repeat x01 32) fresh16 = Ret ((32, None), r1)
    /\ cap fresh16 - written fresh16 < 32
    /\ cap r1 = 48
    /\ round_up_multiple (written fresh16 + 32) (growSize fresh16) = 32.
Proof.
  eexists. split; [vm_compute; reflexivity|].
  repeat split; vm_compute; reflexivity.
Qed.

(** C5, amended: when a write needs more than the free space and none of
    the size computations overflows, the new capacity is the least multiple
    of the quantum strictly greater than [written + len p], that is
    [((written + len p) / growSize + 1) * growSize]: the round-up when
    [written + len p] is not a multiple of the quantum, one quantum more
    when it is. *)
Theorem Write_growth_capacity (a : arch) (r : RingBuffer) (p : list byte) :
  wf a r -> cap r - written r < len p ->
  readPos r + written r <= max_int a -> grow_target r (len p) <= max_int a ->
  exists r',
    Write a p r = Ret ((len p, None), r')
    /\ cap r' = ((written r + len p) / growSize r + 1) * growSize r
    /\ written r + len p < cap r' <= written r + len p + growSize r
    /\ cap r' =
       (if (written r + len p) mod growSize r =? 0
        then round_up_multiple (written r + len p) (growSize r) + growSize r
        else round_up_multiple (written r + len p) (growSize r)).
Proof.
  intros Hwf Hn He Ht. pose proof Hwf as [Hc Hw Hr Hg].
  destruct (Write_wf a r p Hwf) as (r' & HW & _ & _ & _ & _ & Hcap & _);
    [lia | right; split; assumption |].
  replace (len p <=? cap r - written r) with false in Hcap
    by (symmetry; apply Z.leb_gt; lia).
  exists r'. split; [exact HW|]. rewrite Hcap.
  pose proof (grow_target_bounds r (len p) ltac:(lia)) as Hb.
  unfold grow_target in *. set (x := written r + len p) in *.
  set (g := growSize r) in *.
  pose proof (Z.div_mod x g ltac:(lia)) as Hdm.
  pose proof (Z.mod_pos_bound x g ltac:(lia)) as Hm.
  split; [nia|]. split; [lia|].
  unfold round_up_multiple.
  destruct (Z.eqb_spec (x mod g) 0) as [E|E].
  - assert (Hq : (x + g - 1) / g = x / g).
    { symmetry. apply (Z.div_unique _ g _ (g - 1)); [lia|]. nia. }
    rewrite Hq. nia.
  - assert (Hq : (x + g - 1) / g = x / g + 1).
    { symmetry. apply (Z.div_unique _ g _ (x mod g - 1)); [lia|]. nia. }
    rewrite Hq. nia.
Qed.

Lemma Write_growth_capacity_witness :
  (wf Arch64 fresh16
   /\ cap fresh16 - written fresh16 < len (repeat x01 32)
   /\ readPos fresh16 + written fresh16 <= max_int Arch64
   /\ grow_target fresh16 (len (repeat x01 32)) <= max_int Arch64)
  /\ exists r',
      Write Arch64 (repeat x01 32) fresh16 = Ret ((len (repeat x01 32), None), r')
      /\ cap r' =
         ((written fresh16 + len (repeat x01 32)) / growSize fresh16 + 1)
         * growSize fresh16
      /\ written fresh16 + len (repeat x01 32) < cap r'
         <= written fresh16 + len (repeat x01 32) + growSize fresh16
      /\ cap r' =
         (if (written fresh16 + len (repeat x01 32)) mod growSize fresh16 =? 0
          then round_up_multiple (written fresh16 + len (repeat x01 32))
                                 (growSize fresh16) + growSize fresh16
          else round_up_multiple (written fresh16 + len (repeat x01 32))
                                 (growSize fresh16)).
Proof.
  split.
  - by_evaluation.
  - apply (Write_growth_capacity Arch64 fresh16 (repeat x01 32));
      by_evaluation.
Defined.

(** ** Writes: overflow and the bounds *)

Lemma Find_wf (a : arch) (r : RingBuffer) (b : byte) :
  wf a r -> Find a b r = Ret (find_index b (unread r) 0, r).
Proof.
  intros Hwf. unfold Find. rewrite Scan_wf by assumption.
  assert (H : forall (l : list byte) (idx found : Z),
             exists c : bool,
               scan_list (fun elem i f =>
                            if Byte.eqb elem b then Ret (true, i)
                            else Ret (false, f)) l idx found
               = Ret (c, if c then find_index b l idx else found)
               /\ (c = false -> find_index b l idx = -1)).
  { induction l as [|x l IH]; intros idx found.
    - exists false. split; reflexivity.
    - cbn [scan_list find_index]. destruct (Byte.eqb x b); cbn [obind].
      + exists true. split; [reflexivity|discriminate].
      + apply IH. }
  destruct (H (unread r) 0 (-1)) as (c & Hs & Hc).
  rewrite Hs. cbn [obind]. destruct c; [reflexivity|].
  now rewrite Hc.
Qed.

(** The first half of the overflow policy holds: when [written + len p] is
    not representable, [Write] returns 0 and the overflow error and leaves
    the buffer as it was. *)
Lemma Write_overflow_rejected (a : arch) (r : RingBuffer) (p : list byte) :
  wf a r -> len p <= max_int a -> max_int a < written r + len p ->
  Write a p r = Ret ((0, Some ErrBufferOverflow), r).
Proof.
  intros Hwf Hp Ho. pose proof Hwf as [Hc Hw Hr Hg].
  unfold Write.
  replace (len p =? 0) with false by (symmetry; apply Z.eqb_neq; lia).
  cbv beta zeta iota.
  erewrite bind_ret by (apply ensureCapacity_overflow; assumption).
  reflexivity.
Qed.

(** It applies on a 32-bit target to a write of 2^30 + 16 bytes into the
    buffer that holds 2^30 - 16. *)
Example overflow_is_rejected :
  exists r0 r1,
    New Arch32 16 = Ret r0
    /\ Write Arch32 first_chunk r0 = Ret ((len first_chunk, None), r1)
    /\ max_int Arch32 < written r1 + len third_chunk
    /\ Write Arch32 third_chunk r1 = Ret ((0, Some ErrBufferOverflow), r1).
Proof.
  assert (L3 : len third_chunk = 1073741840)
    by (unfold len, third_chunk; rewrite repeat_length; lia).
  destruct (run_second_write first_chunk second_chunk
              len_first_chunk len_second_chunk)
    as (r0 & r1 & _ & HN & HW1 & Hwf1 & (_ & Hw1 & _) & _).
  exists r0, r1. split; [exact HN|]. split; [exact HW1|].
  assert (Ho : max_int Arch32 < written r1 + len third_chunk)
    by (rewrite Hw1, L3, max_int_32; lia).
  split; [exact Ho|].
  apply Write_overflow_rejected; [exact Hwf1 | | exact Ho].
  rewrite L3, max_int_32. lia.
Qed.

(** Every operation keeps the invariant and never shrinks the storage, as
    long as the capacity computation of a write stays in range. *)
Lemma operations_preserve_wf (a : arch) (r : RingBuffer) :
  wf a r ->
  (forall p, grow_in_range a r (len p) ->
     exists r', Write a p r = Ret ((len p, None), r')
                /\ wf a r' /\ cap r <= cap r')
  /\ (forall p, exists x r', Read a p r = Ret (x, r')
                             /\ wf a r' /\ cap r' = cap r)
  /\ (forall p, exists x, Peek a p r = Ret (x, r))
  /\ (forall b, exists x, Find a b r = Ret (x, r))
  /\ (forall b, len b <= max_int a -> exists x, FindBytes a b r = Ret (x, r))
  /\ (forall (S : Type) fn (s x : S) r', Scan a fn s r = Ret (x, r') -> r' = r)
  /\ Len r = Ret (written r, r).
Proof.
  intros Hwf. pose proof Hwf as [Hc Hw Hr Hg].
  split; [|split; [|split; [|split; [|split; [|split]]]]].
  - intros p Hin.
    destruct (Write_any a r p Hwf Hin) as (r' & HW & Hwf' & _ & _ & _ & Hcap).
    exists r'. repeat split; try assumption; apply Hwf'.
  - intros p. destruct (Read_wf a r p Hwf) as (p' & HR & _).
    pose proof (len_nonneg p).
    eexists _, _. split; [exact HR|]. split; [apply advance_wf; [assumption|lia]|].
    reflexivity.
  - intros p. destruct (peek_wf a r p Hwf) as (p' & HP & _).
    eexists. exact HP.
  - intros b. eexists. now apply Find_wf.
  - intros b Hb. eexists. now apply FindBytes_wf.
  - intros S fn s x r' H. rewrite Scan_wf in H by assumption.
    destruct (scan_list fn (unread r) 0 s) as [[c s']|]; cbn in H;
      [now inversion H | discriminate].
  - reflexivity.
Qed.

(** C2: on a 32-bit target, after [New(16)] and a write of 2^30 - 16 bytes
    the buffer is 2^30 bytes long; a further write of 2^30 bytes needs
    2^31 - 16 bytes, which is representable, but the round-up to 2^31 is
    not: no error is returned, the capacity stays 2^30, [Write] returns
    2^30 and no error, and of the 2^30 bytes only the first 16 are in the
    storage. *)
Theorem Write_reports_unstored_bytes :
  exists r0 r1 r2,
    New Arch32 16 = Ret r0
    /\ Write Arch32 first_chunk r0 = Ret ((len first_chunk, None), r1)
    /\ wf Arch32 r1
    /\ (cap r1 = 1073741824 /\ written r1 = 1073741808
        /\ written r1 + len second_chunk <= max_int Arch32)
    /\ Write Arch32 second_chunk r1 = Ret ((len second_chunk, None), r2)
    /\ buf r2 = first_chunk ++ firstn (Z.to_nat 16) second_chunk
    /\ cap r2 = 1073741824
    /\ len second_chunk = 1073741824.
Proof.
  destruct (run_second_write first_chunk second_chunk
              len_first_chunk len_second_chunk)
    as (r0 & r1 & r2 & HN & HW1 & Hwf1 & H1 & HW2 & Hb2 & Hg2 & Hr2 & Hw2 & Hc2).
  exists r0, r1, r2.
  split; [exact HN|]. split; [exact HW1|]. split; [exact Hwf1|].
  split; [exact H1|]. split; [exact HW2|]. split; [exact Hb2|].
  split; [exact Hc2|]. exact len_second_chunk.
Qed.

(** C4: on a 32-bit target, after [New(16)] and a write of 2^30 - 16 bytes
    the state satisfies the invariant; a further write of 2^30 bytes
    returns no error and leaves [written = 2^31 - 16] over a capacity of
    2^30: the bound [0 <= written <= cap] is broken.  (Every other
    operation, and every write whose capacity computation stays in range,
    keeps the bounds and never shrinks the storage:
    [operations_preserve_wf].) *)
Theorem Write_breaks_written_bound :
  exists r0 r1 r2,
    New Arch32 16 = Ret r0
    /\ Write Arch32 first_chunk r0 = Ret ((len first_chunk, None), r1)
    /\ wf Arch32 r1
    /\ Write Arch32 second_chunk r1 = Ret ((len second_chunk, None), r2)
    /\ cap r2 = 1073741824
    /\ written r2 = 2147483632
    /\ ~ (0 <= written r2 <= cap r2).
Proof.
  destruct (run_second_write first_chunk second_chunk
              len_first_chunk len_second_chunk)
    as (r0 & r1 & r2 & HN & HW1 & Hwf1 & H1 & HW2 & Hb2 & Hg2 & Hr2 & Hw2 & Hc2).
  exists r0, r1, r2.
  split; [exact HN|]. split; [exact HW1|]. split; [exact Hwf1|].
  split; [exact HW2|]. split; [exact Hc2|]. split; [exact Hw2|].
  rewrite Hc2, Hw2. lia.
Qed.

(** ** Peek leaves the buffer alone *)

Lemma same_on_start (p q : list byte) :
  length p = length q -> same_on (fun _ => False) p q.
Proof. intros H. split; [exact H|]. intros i []. Qed.

Lemma same_on_overwrite (P : nat -> Prop) (p q : list byte) (lo : Z)
    (src : list byte) :
  same_on P p q -> 0 <= lo -> (Z.to_nat lo + length src <= length p)%nat ->
  same_on (fun i => P i \/ (Z.to_nat lo <= i < Z.to_nat lo + length src)%nat)
          (overwrite p lo src) (overwrite q lo src).
Proof.
  intros [Hl H] Hlo Hfit. split.
  - rewrite !length_overwrite. lia.
  - intros i Hi. unfold overwrite. simp_nth. repeat rewrite <- Hl.
    destruct (Nat.ltb_spec i (Init.Nat.min (Z.to_nat lo) (length p)));
      destruct (Nat.ltb_spec i (Z.to_nat lo)); try lia.
    + destruct Hi as [Hi|Hi]; [now apply H | lia].
    + destruct (Nat.ltb_spec (i - Init.Nat.min (Z.to_nat lo) (length p)) (length src)).
      * reflexivity.
      * destruct Hi as [Hi|Hi]; [|lia].
        replace (Z.to_nat lo + length src
                 + (i - Init.Nat.min (Z.to_nat lo) (length p) - length src))%nat
          with i by lia.
        now apply H.
Qed.

Lemma same_on_firstn (P : nat -> Prop) (p q : list byte) (n : nat) :
  same_on P p q -> (forall i, (i < n)%nat -> (i < length p)%nat -> P i) ->
  firstn n p = firstn n q.
Proof.
  intros [Hl H] Hn. apply nth_error_ext. intros i.
  rewrite !nth_error_firstn. destruct (Nat.ltb_spec i n); [|reflexivity].
  destruct (Nat.lt_ge_cases i (length p)) as [L|L].
  - apply H, Hn; assumption.
  - transitivity (@None byte); [|symmetry]; apply nth_error_None; lia.
Qed.

Section PeekSim.

Variable a : arch.

Lemma wrap_below (z : Z) :
  min_int a - (2 * max_int a + 2) <= z < min_int a ->
  wrap a z = z + (2 * max_int a + 2).
Proof.
  intros H. unfold wrap. pose proof (max_int_lower a).
  rewrite modulus_max_int, min_int_max_int in *.
  replace (z - (- max_int a - 1))
    with ((z - (- max_int a - 1) + (2 * max_int a + 2)) + (-1) * (2 * max_int a + 2)) by lia.
  rewrite Z.mod_add by lia.
  rewrite Z.mod_small; lia.
Qed.

Lemma wrap_cases (z : Z) :
  min_int a - max_int a <= z <= max_int a - min_int a ->
  (wrap a z = z /\ min_int a <= z <= max_int a)
  \/ (wrap a z = z - (2 * max_int a + 2) /\ max_int a < z)
  \/ (wrap a z = z + (2 * max_int a + 2) /\ z < min_int a).
Proof.
  intros H. pose proof (max_int_lower a). pose proof (min_int_max_int a).
  destruct (Z.lt_ge_cases z (min_int a)); [right; right|].
  { split; [apply wrap_below; lia | lia]. }
  destruct (Z.lt_ge_cases (max_int a) z); [right; left|left].
  - split; [|lia]. rewrite wrap_above by lia. rewrite modulus_max_int. lia.
  - split; [apply wrap_small; lia | lia].
Qed.

Lemma slice_inv (s : list byte) (lo hi : Z) :
  (slice s lo hi = Ret (firstn (Z.to_nat (hi - lo)) (skipn (Z.to_nat lo) s))
   /\ 0 <= lo <= hi /\ hi <= len s)
  \/ slice s lo hi = Panic.
Proof.
  unfold slice.
  destruct (Z.leb_spec 0 lo); [|now right].
  destruct (Z.leb_spec lo hi); [|now right].
  destruct (Z.leb_spec hi (len s)); [|now right].
  left. cbn. auto.
Qed.

Lemma copy_at_inv (d : list byte) (lo hi : Z) (src : list byte) :
  (copy_at d lo hi src = Ret (overwrite d lo (firstn (Z.to_nat (hi - lo)) src))
   /\ 0 <= lo <= hi /\ hi <= len d)
  \/ (copy_at d lo hi src = Panic /\ ~ (0 <= lo <= hi /\ hi <= len d)).
Proof.
  unfold copy_at.
  destruct (Z.leb_spec 0 lo); [|right; split; [reflexivity|lia]].
  destruct (Z.leb_spec lo hi); [|right; split; [reflexivity|lia]].
  destruct (Z.leb_spec hi (len d)); [|right; split; [reflexivity|lia]].
  left. cbn. auto.
Qed.

Lemma wrap_range (z : Z) : min_int a <= wrap a z <= max_int a.
Proof.
  unfold wrap. pose proof (max_int_lower a).
  pose proof (Z.mod_pos_bound (z - min_int a) (2 ^ int_bits a)) as Hm.
  rewrite modulus_max_int, min_int_max_int in *. lia.
Qed.

Lemma peek_unfold (p : list byte) :
  peek a p =
  (if len p =? 0 then ret (p, 0, None)
   else '(ofs1, len1, len2) <- readInfo a ;; peek_body a p ofs1 len1 len2)%go.
Proof. reflexivity. Qed.

Lemma peek_body_sim (r : RingBuffer) (p q : list byte) (ofs1 len1 len2 : Z) :
  length p = length q -> 0 < len p <= max_int a -> cap r <= max_int a ->
  min_int a <= ofs1 <= max_int a ->
  min_int a <= len1 <= max_int a ->
  min_int a <= len2 <= max_int a ->
  (0 <= ofs1 <= cap r -> 0 <= len1 -> len1 <= cap r - ofs1) ->
  match peek_body a p ofs1 len1 len2 r with
  | Ret ((p', n, e), r1) =>
      r1 = r
      /\ exists q',
          peek_body a q ofs1 len1 len2 r = Ret ((q', n, e), r)
          /\ length q' = length p'
          /\ firstn (Z.to_nat n) q' = firstn (Z.to_nat n) p'
  | Panic => peek_body a q ofs1 len1 len2 r = Panic
  end.
Proof.
  intros Hl Hp Hc Ho H1 H2 G.
  pose proof (max_int_lower a) as Hmax. pose proof (min_int_max_int a) as Hmin.
  assert (Hlq : len q = len p) by (unfold len; now rewrite Hl).
  unfold peek_body. rewrite Hlq.
  destruct ((len1 =? 0) && (len2 =? 0)).
  { cbn. split; [reflexivity|]. exists q. repeat split. now symmetry. }
  monad_simp. unfold slice_from, slice_to, copy. rewrite Hlq.
  assert (Hcp : forall src,
             copy_at p 0 (len p) src
             = Ret (overwrite p 0 (firstn (Z.to_nat (len p - 0)) src)))
    by (intros; apply copy_at_ok; lia).
  assert (Hcq : forall src,
             copy_at q 0 (len p) src
             = Ret (overwrite q 0 (firstn (Z.to_nat (len p - 0)) src)))
    by (intros; apply copy_at_ok; lia).
  destruct (Z.leb_spec (len p) len1) as [L|L].
  - destruct (slice_inv (buf r) ofs1 (iadd a ofs1 (len p))) as [(Es & Hlo & Hhi)|Es];
      rewrite Es; [|reflexivity].
    rewrite Hcp, Hcq. split; [reflexivity|]. eexists. split; [reflexivity|].
    destruct (wrap_cases (ofs1 + len p) ltac:(lia)) as [[Ew Hz]|[[Ew Hz]|[Ew Hz]]];
      unfold iadd in *; rewrite Ew in *; try (unfold cap, len in *; lia).
    set (src := firstn _ (firstn _ _)).
    assert (Hsrc : length src = length p) by (subst src; simp_len; lia).
    pose proof (same_on_overwrite _ p q 0 src (same_on_start p q Hl)
                  ltac:(lia) ltac:(lia)) as S.
    split; [rewrite !length_overwrite; lia|].
    symmetry. apply (same_on_firstn _ _ _ _ S).
    intros i Hi _. right. unfold len in *. lia.
  - destruct (slice_inv (buf r) ofs1 (len (buf r))) as [(Es & Hlo & Hhi)|Es];
      rewrite Es; [|reflexivity].
    rewrite Hcp, Hcq.
    destruct (slice_inv (buf r) 0 len2) as [(Es2 & Hlo2 & Hhi2)|Es2];
      rewrite Es2; [|reflexivity].
    set (src1 := firstn (Z.to_nat (len p - 0)) _).
    set (src2 := firstn (Z.to_nat (len2 - 0)) _).
    assert (Hs1 : (length src1 <= length p)%nat) by (subst src1; simp_len; lia).
    pose proof (same_on_overwrite _ p q 0 src1 (same_on_start p q Hl)
                  ltac:(lia) ltac:(lia)) as S1.
    set (p1 := overwrite p 0 src1) in *. set (q1 := overwrite q 0 src1) in *.
    assert (Hp1 : length p1 = length p) by (subst p1; rewrite length_overwrite; lia).
    assert (Hq1 : length q1 = length p) by (subst q1; rewrite length_overwrite; lia).
    assert (Hlq1 : len q1 = len p1) by (unfold len; now rewrite Hp1, Hq1).
    rewrite Hlq1.
    destruct (copy_at_inv p1 len1 (len p1) src2) as [(Ec & Hlo3 & Hhi3)|[Ec Hn]].
    + rewrite Ec, (copy_at_ok q1) by lia.
      split; [reflexivity|]. eexists. split; [reflexivity|].
      set (src3 := firstn (Z.to_nat (len p1 - len1)) src2).
      assert (Hs3 : (Z.to_nat len1 + length src3 <= length p1)%nat)
        by (subst src3; unfold len in *; rewrite length_firstn; lia).
      pose proof (same_on_overwrite _ p1 q1 len1 src3 S1 ltac:(lia) Hs3) as S2.
      split; [rewrite !length_overwrite; lia|].
      symmetry. apply (same_on_firstn _ _ _ _ S2).
      intros i Hi _.
      specialize (G ltac:(unfold cap; lia) ltac:(lia)).
      assert (Hl1 : length src1 = Init.Nat.min (length p) (length (buf r) - Z.to_nat ofs1)).
      { subst src1. unfold len. rewrite !length_firstn, length_skipn. lia. }
      assert (Hl3 : length src3 = Init.Nat.min (length p - Z.to_nat len1) (Z.to_nat len2)).
      { subst src3 src2. unfold len in *. rewrite !length_firstn, skipn_O. lia. }
      set (n := if len p >? iadd a len1 len2 then iadd a len1 len2 else len p) in *.
      assert (Hn : n <= len p /\ (n <= len1 + len2 \/ n < 0)).
      { subst n. unfold iadd.
        destruct (wrap_cases (len1 + len2) ltac:(lia)) as [[Ew Hz]|[[Ew Hz]|[Ew Hz]]];
          rewrite Ew; rewrite Z.gtb_ltb;
          match goal with |- context [?x <? ?y] => destruct (Z.ltb_spec x y) end;
          lia. }
      clearbody n. clear S1 S2 Ec Es Es2 Hcp Hcq.
      unfold cap, len in *.
      destruct (Z.lt_ge_cases (Z.of_nat i) len1); [left; right | right]; lia.
    + rewrite Ec.
      destruct (copy_at_inv q1 len1 (len p1) src2) as [(Ec' & Hlo3 & Hhi3)|[Ec' _]];
        [exfalso; apply Hn; lia | now rewrite Ec'].
Qed.

Lemma peek_sim (r : RingBuffer) (p q : list byte) :
  length p = length q -> len p <= max_int a -> int_typed a r ->
  match peek a p r with
  | Ret ((p', n, e), r1) =>
      r1 = r
      /\ exists q',
          peek a q r = Ret ((q', n, e), r)
          /\ length q' = length p'
          /\ firstn (Z.to_nat n) q' = firstn (Z.to_nat n) p'
  | Panic => peek a q r = Panic
  end.
Proof.
  intros Hl Hp (Hc & Hr & Hw).
  pose proof (max_int_lower a) as Hmax. pose proof (min_int_max_int a) as Hmin.
  assert (Hlq : len q = len p) by (unfold len; now rewrite Hl).
  rewrite !peek_unfold, Hlq.
  destruct (Z.eqb_spec (len p) 0) as [E|E].
  { cbn. split; [reflexivity|]. exists q. repeat split. now symmetry. }
  pose proof (len_nonneg p) as Hp0. pose proof (len_nonneg (buf r)) as Hb0.
  unfold readInfo. monad_simp. fold (cap r) in *.
  destruct (Z.leb_spec (readPos r) (isub a (cap r) (written r))) as [L|L].
  - apply peek_body_sim; try assumption; try lia.
    intros Ho Hw0.
    destruct (wrap_cases (cap r - written r) ltac:(lia)) as [[Ew Hz]|[[Ew Hz]|[Ew Hz]]];
      unfold isub in *; rewrite Ew in *; lia.
  - apply peek_body_sim; try assumption; try lia; try apply wrap_range.
    intros Ho Hw0. unfold isub in *.
    rewrite (wrap_small a (cap r - readPos r)) in * by lia. lia.
Qed.

End PeekSim.

Lemma Peek_frame (a : arch) (r : RingBuffer) (p : list byte)
    (res : list byte * Z * option error) (r' : RingBuffer) :
  Peek a p r = Ret (res, r') -> r' = r.
Proof.
  unfold Peek. rewrite peek_unfold.
  destruct (len p =? 0); [intros H; now inversion H|].
  unfold readInfo, peek_body, slice_from, slice_to, copy. monad_simp.
  repeat (match goal with
          | |- context [slice ?s ?lo ?hi] => destruct (slice s lo hi)
          | |- context [copy_at ?d ?lo ?hi ?s] => destruct (copy_at d lo hi s)
          | |- context [if ?c then _ else _] => destruct c
          end; cbv beta iota);
    intros H; try discriminate; now inversion H.
Qed.

(** C7: [Peek] returns the buffer it was given (storage, capacity, cursor
    and count unchanged), and a second [Peek] with a destination of the
    same length, whatever it holds, returns the same count, the same error
    and the same bytes. *)
Theorem Peek_does_not_mutate (a : arch) (r : RingBuffer) (p q : list byte)
    (res : list byte * Z * option error) (r' : RingBuffer) :
  int_typed a r -> len p <= max_int a -> length q = length p ->
  Peek a p r = Ret (res, r') ->
  r' = r
  /\ exists res2,
      Peek a q r' = Ret (res2, r')
      /\ count_of res2 = count_of res
      /\ snd res2 = snd res
      /\ returned res2 = returned res.
Proof.
  intros Ht Hp Hl H. unfold Peek in *.
  pose proof (peek_sim a r p q (eq_sym Hl) Hp Ht) as S.
  rewrite H in S. destruct res as [[p' n] e]. destruct S as (-> & q' & Hq & _ & Hf).
  split; [reflexivity|]. exists (q', n, e). repeat split; assumption.
Qed.

Lemma Peek_does_not_mutate_witness :
  (int_typed Arch64 holds_aab
   /\ len [x00; x00] <= max_int Arch64
   /\ length [x01; x01] = length [x00; x00]
   /\ Peek Arch64 [x00; x00] holds_aab = Ret (([x61; x61], 2, None), holds_aab))
  /\ holds_aab = holds_aab
  /\ exists res2,
      Peek Arch64 [x01; x01] holds_aab = Ret (res2, holds_aab)
      /\ count_of res2 = count_of ([x61; x61], 2, None)
      /\ snd res2 = snd ([x61; x61], 2, @None error)
      /\ returned res2 = returned ([x61; x61], 2, None).
Proof.
  split.
  - by_evaluation.
  - apply (Peek_does_not_mutate Arch64 holds_aab [x00; x00] [x01; x01]
             ([x61; x61], 2, None) holds_aab); by_evaluation.
Defined.

(** ** Order of the bytes *)

(** Writes whose capacity computations stay in range, followed by reads:
    the reads hand back, in order, a prefix of what was unread before the
    writes followed by what was written; all of it when nothing is left. *)
Lemma Writes_Reads_fifo (a : arch) (ps ds : list (list byte)) (r : RingBuffer) :
  wf a r -> writes_in_range a ps r ->
  exists r1 ys r2,
    Writes a ps r = Ret (map (fun p => (len p, None)) ps, r1)
    /\ Reads a ds r1 = Ret (ys, r2)
    /\ concat (map returned ys) ++ unread r2 = unread r ++ concat ps
    /\ (written r2 = 0 -> concat (map returned ys) = unread r ++ concat ps).
Proof.
  intros Hwf Hin.
  destruct (Writes_wf a ps r Hwf Hin) as (r1 & HW & Hwf1 & Hu & _).
  destruct (Reads_wf a ds r1 Hwf1) as (ys & r2 & HR & Hwf2 & Hcat & _).
  exists r1, ys, r2. split; [exact HW|]. split; [exact HR|].
  rewrite <- Hu. split; [exact Hcat|].
  intros H0. rewrite <- Hcat.
  assert (E : unread r2 = []) by (unfold unread; now rewrite H0).
  now rewrite E, app_nil_r.
Qed.

(** ** The scenarios of the test suite *)

(** Two writes of "Hello", a read of five bytes and a third write, from
    [New(16)]: the read returns "Hello" and the lengths are 10, 5, 10. *)
Example hello_lengths :
  (Write Arch64 hello ;;; Write Arch64 hello ;;;
   n1 <- Len ;;
   x <- Read Arch64 (zeros 5) ;;
   n2 <- Len ;;
   Write Arch64 hello ;;;
   n3 <- Len ;;
   ret (n1, returned x, n2, n3))%go fresh16
  = Ret ((10, hello, 5, 10),
         {| buf := hello ++ hello ++ hello ++ [x00];
            growSize := 16; readPos := 5; written := 10 |}).
Proof. vm_compute. reflexivity. Qed.

(** A hundred writes of "Hello" into [New(32)] force growth; twenty reads
    of five bytes each return "Hello" and leave 400 bytes. *)
Example hello_growth :
  exists r,
    obind (New Arch64 32) (fun r0 =>
    (Writes Arch64 (repeat hello 100) ;;;
     n1 <- Len ;;
     xs <- Reads Arch64 (repeat (zeros 5) 20) ;;
     n2 <- Len ;;
     ret (n1, map returned xs, n2))%go r0)
    = Ret ((500, repeat hello 20, 400), r).
Proof. eexists. vm_compute. reflexivity. Qed.

(** * Further properties of the operations *)

(** ** The searches on a list *)

Lemma find_index_first (b : byte) (l : list byte) (idx : Z) :
  (find_index b l idx = -1 /\ ~ In b l)
  \/ exists k : nat,
       find_index b l idx = idx + Z.of_nat k
       /\ nth_error l k = Some b
       /\ forall j, (j < k)%nat -> nth_error l j <> Some b.
Proof.
  revert idx. induction l as [|x l IH]; intros idx.
  - left. split; [reflexivity|intros []].
  - cbn [find_index]. destruct (Byte.eqb x b) eqn:E.
    + apply Byte.byte_dec_bl in E. subst x.
      right. exists 0%nat. split; [lia|]. split; [reflexivity|]. lia.
    + apply Byte.eqb_false in E.
      destruct (IH (idx + 1)) as [[H1 H2]|(k & H1 & H2 & H3)].
      * left. split; [exact H1|]. intros [H|H]; [now apply E|now apply H2].
      * right. exists (S k). split; [lia|]. split; [exact H2|].
        intros [|j] Hj; cbn [nth_error].
        -- intros H. inversion H. now apply E.
        -- apply H3. lia.
Qed.

(** A match that [stream_match] reports is one: with [pre] the bytes
    already visited, of which the last [ofs] are the first [ofs] bytes of
    the target and start at [start], the result is -1 or the position of
    an occurrence of the target. *)
Lemma stream_match_occurrence (target content pre : list byte) (start : Z)
    (ofs : nat) :
  ((0 < ofs)%nat ->
     (ofs <= length pre)%nat
     /\ start = Z.of_nat (length pre - ofs)
     /\ forall j, (j < ofs)%nat ->
          nth_error pre (length pre - ofs + j) = nth_error target j) ->
  stream_match target content (Z.of_nat (length pre)) start ofs = -1
  \/ exists k : nat,
       stream_match target content (Z.of_nat (length pre)) start ofs
       = Z.of_nat k
       /\ forall j, (j < length target)%nat ->
            nth_error (pre ++ content) (k + j) = nth_error target j.
Proof.
  revert pre start ofs.
  induction content as [|c rest IH]; intros pre start ofs Hinv.
  - left. reflexivity.
  - cbn [stream_match].
    destruct (nth_error target ofs) as [t|] eqn:Et; [|left; reflexivity].
    replace (Z.of_nat (length pre) + 1) with (Z.of_nat (length (pre ++ [c])))
      by (rewrite length_app; cbn [length]; lia).
    replace (pre ++ c :: rest) with ((pre ++ [c]) ++ rest)
      by (now rewrite <- app_assoc).
    destruct (Byte.eqb c t) eqn:E.
    + apply Byte.byte_dec_bl in E. subst t.
      assert (Hpos : forall j, (j < S ofs)%nat ->
                nth_error (pre ++ [c]) (length pre - ofs + j)
                = nth_error target j
                /\ (ofs <= length pre)%nat
                /\ (if Nat.eqb ofs 0 then Z.of_nat (length pre) else start)
                   = Z.of_nat (length pre - ofs)).
      { intros j Hj. destruct ofs as [|o].
        - assert (j = 0)%nat by lia. subst j.
          rewrite Nat.sub_0_r, Nat.add_0_r, nth_error_app2 by lia.
          rewrite Nat.sub_diag. change (nth_error [c] 0) with (Some c).
          cbn [Nat.eqb].
          split; [now rewrite Et|]. split; [lia|]. f_equal; lia.
        - destruct (Hinv ltac:(lia)) as (Hle & Hst & Hj').
          cbn [Nat.eqb]. split; [|split; [exact Hle|exact Hst]].
          destruct (Nat.eq_dec j (S o)) as [->|Hne].
          + rewrite nth_error_app2 by lia.
            replace (length pre - S o + S o - length pre)%nat with 0%nat by lia.
            change (nth_error [c] 0) with (Some c). now rewrite Et.
          + rewrite nth_error_app1 by lia. apply Hj'. lia. }
      destruct (Hpos 0%nat ltac:(lia)) as (_ & Hle & Hst).
      rewrite Hst.
      destruct (Nat.eqb_spec (S ofs) (length target)) as [El|El].
      * right. exists (length pre - ofs)%nat. split; [reflexivity|].
        intros j Hj. rewrite nth_error_app1
          by (rewrite length_app; cbn [length]; lia).
        apply Hpos. lia.
      * apply IH. intros _.
        rewrite length_app. cbn [length].
        split; [lia|]. split; [f_equal; lia|].
        intros j Hj.
        replace (length pre + 1 - S ofs + j)%nat
          with (length pre - ofs + j)%nat by lia.
        apply Hpos. exact Hj.
    + apply IH. intros H. lia.
Qed.

Lemma find_sequence_occurrence (b l : list byte) :
  find_sequence b l = -1
  \/ exists k : nat,
       find_sequence b l = Z.of_nat k
       /\ (k + length b <= length l)%nat
       /\ firstn (length b) (skipn k l) = b.
Proof.
  unfold find_sequence. destruct b as [|x b]; [left; reflexivity|].
  destruct (stream_match_occurrence (x :: b) l [] (-1) 0) as [H|(k & H & Hk)];
    [lia | left; exact H |].
  right. exists k. cbn [length Z.of_nat app] in *. split; [exact H|].
  assert (Hlen : (k + length (x :: b) <= length l)%nat).
  { pose proof (Hk (length b) ltac:(cbn [length]; lia)) as Hlast.
    assert (Hs : nth_error (x :: b) (length b) <> None)
      by (apply nth_error_Some; cbn [length]; lia).
    rewrite <- Hlast in Hs. apply nth_error_Some in Hs. cbn [length]. lia. }
  split; [exact Hlen|].
  apply nth_error_ext. intros j.
  rewrite nth_error_firstn, nth_error_skipn.
  destruct (Nat.ltb_spec j (S (length b))) as [Hj|Hj].
  - apply Hk. exact Hj.
  - symmetry. apply nth_error_None. cbn [length]. exact Hj.
Qed.

Lemma stream_match_single (b : byte) (l : list byte) (idx start : Z) :
  stream_match [b] l idx start 0 = find_index b l idx.
Proof.
  revert idx start. induction l as [|x l IH]; intros idx start.
  - reflexivity.
  - cbn [stream_match find_index nth_error length Nat.eqb].
    destruct (Byte.eqb x b); [reflexivity|apply IH].
Qed.

(** The bytes before the first occurrence of the first byte of the target
    are passed over with the match offset at zero. *)
Lemma stream_match_skip (x : byte) (t pre l : list byte) (idx start : Z) :
  ~ In x pre ->
  stream_match (x :: t) (pre ++ l) idx start 0
  = stream_match (x :: t) l (idx + len pre) start 0.
Proof.
  revert idx. induction pre as [|c pre IH]; intros idx Hn.
  - cbn [app]. change (len []) with 0. now rewrite Z.add_0_r.
  - cbn [app stream_match nth_error].
    destruct (Byte.eqb c x) eqn:E.
    + apply Byte.byte_dec_bl in E. subst c. exfalso. apply Hn. now left.
    + rewrite IH by (intros H; apply Hn; now right).
      f_equal. unfold len. cbn [length]. lia.
Qed.

(** From a match offset at the end of [done], the bytes [todo] complete
    the match. *)
Lemma stream_match_run (done todo l : list byte) (idx start : Z) :
  todo <> [] ->
  stream_match (done ++ todo) (todo ++ l) idx start (length done)
  = if Nat.eqb (length done) 0 then idx else start.
Proof.
  revert done idx start. induction todo as [|c todo IH];
    intros done idx start Hne; [congruence|].
  cbn [app stream_match].
  rewrite nth_error_app2 by lia. rewrite Nat.sub_diag. cbn [nth_error].
  rewrite (Byte.byte_dec_lb (eq_refl c)).
  destruct (Nat.eqb_spec (S (length done)) (length (done ++ c :: todo)))
    as [E|E].
  - reflexivity.
  - assert (Ht : todo <> []).
    { intros ->. apply E. rewrite length_app. cbn [length]. lia. }
    pose proof (IH (done ++ [c]) (idx + 1)
                  (if Nat.eqb (length done) 0 then idx else start) Ht) as H.
    rewrite <- app_assoc in H. cbn [app] in H.
    rewrite length_app in H. cbn [length] in H.
    replace (length done + 1)%nat with (S (length done)) in H by lia.
    rewrite H. reflexivity.
Qed.

Lemma find_sequence_unpreceded (x : byte) (t pre rest : list byte) :
  ~ In x pre ->
  find_sequence (x :: t) (pre ++ (x :: t) ++ rest) = len pre.
Proof.
  intros Hn. unfold find_sequence.
  rewrite stream_match_skip by assumption.
  exact (stream_match_run [] (x :: t) rest (0 + len pre) (-1) ltac:(discriminate)).
Qed.

(** ** Sequences of calls and the queue of bytes *)

Lemma bytes_written_nonneg (cs : list call) : 0 <= bytes_written cs.
Proof.
  induction cs as [|[p|p|p] cs IH]; cbn [bytes_written];
    try pose proof (len_nonneg p); lia.
Qed.

Lemma run_call_queue (a : arch) (c : call) (r : RingBuffer) (B T : Z) :
  wf a r -> cap r <= B -> T + growSize r <= B ->
  written r + bytes_written [c] <= T -> B + T <= max_int a ->
  exists r',
    run_call a c r = Ret (fst (queue_call c (unread r)), r')
    /\ wf a r'
    /\ unread r' = snd (queue_call c (unread r))
    /\ cap r <= cap r' <= B
    /\ growSize r' = growSize r
    /\ written r' + bytes_written [c] <= written r + 2 * bytes_written [c].
Proof.
  intros Hwf HB HT Hw Hm. pose proof Hwf as [Hc Hwr Hr Hg].
  pose proof (length_unread a r Hwf) as Hlen.
  destruct c as [p|p|p]; cbn [run_call queue_call fst snd bytes_written] in *.
  - destruct p as [|x p].
    + exists r. unfold bind. rewrite (Write_empty a). cbn [ret].
      rewrite app_nil_r. change (len []) with 0.
      repeat split; try assumption; lia.
    + set (q := x :: p) in *.
      assert (Hq : 0 < len q) by (unfold len, q; cbn [length]; lia).
      pose proof (grow_target_bounds r (len q) ltac:(lia)) as Hgt.
      destruct (Write_wf a r q Hwf Hq) as (r' & HW & Hwf' & Hu & Hw' & Hg' & Hc' & _).
      { right. split; lia. }
      exists r'. unfold bind. rewrite HW. cbn [ret].
      split; [reflexivity|]. split; [exact Hwf'|]. split; [exact Hu|].
      split; [|split; [exact Hg'|lia]].
      rewrite Hc'. destruct (Z.leb_spec (len q) (cap r - written r)); lia.
  - destruct (Read_wf a r p Hwf) as (p' & HR & Hl & Hpre).
    pose proof (len_nonneg p).
    exists (advance r (Z.min (len p) (written r))).
    unfold bind. rewrite HR. cbn [ret].
    unfold got, queue_front, peek_err. cbn [returned count_of snd].
    rewrite Hlen, Hpre.
    split; [reflexivity|].
    split; [apply (advance_wf a); [assumption|lia]|].
    split; [apply (unread_advance a); [assumption|lia]|].
    unfold advance, cap. cbn [buf growSize written]. fold (cap r).
    repeat split; lia.
  - destruct (peek_wf a r p Hwf) as (p' & HP & Hl & Hpre).
    exists r. unfold bind, Peek. rewrite HP. cbn [ret].
    unfold got, queue_front, peek_err. cbn [returned count_of snd].
    rewrite Hlen, Hpre.
    repeat split; try assumption; lia.
Qed.

Lemma run_calls_queue (a : arch) (cs : list call) (r : RingBuffer) (B T : Z) :
  wf a r -> cap r <= B -> T + growSize r <= B ->
  written r + bytes_written cs <= T -> B + T <= max_int a ->
  exists r',
    run_calls a cs r = Ret (fst (queue_calls cs (unread r)), r')
    /\ wf a r'
    /\ unread r' = snd (queue_calls cs (unread r))
    /\ cap r <= cap r' <= B
    /\ growSize r' = growSize r.
Proof.
  revert r. induction cs as [|c cs IH]; intros r Hwf HB HT Hw Hm.
  - exists r. repeat split; try apply Hwf; lia.
  - pose proof (bytes_written_nonneg cs) as Hcs.
    assert (Hsplit : bytes_written (c :: cs)
                     = bytes_written [c] + bytes_written cs)
      by (destruct c; cbn [bytes_written]; lia).
    pose proof (bytes_written_nonneg [c]) as Hc1.
    destruct (run_call_queue a c r B (T - bytes_written cs) Hwf HB)
      as (r1 & H1 & Hwf1 & Hu1 & Hcap1 & Hg1 & Hw1); try lia.
    destruct (IH r1 Hwf1) as (r2 & H2 & Hwf2 & Hu2 & Hcap2 & Hg2); try lia.
    exists r2. cbn [run_calls queue_calls]. unfold bind at 1. rewrite H1.
    unfold bind at 1. rewrite H2. cbn [ret].
    rewrite Hu1 in *.
    destruct (queue_call c (unread r)) as [x q1]. cbn [fst snd] in *.
    destruct (queue_calls cs q1) as [xs q2]. cbn [fst snd] in *.
    repeat split; try apply Hwf2; try assumption; lia.
Qed.

(** ** Large chunks on a 32-bit target *)

Lemma len_third_chunk : len third_chunk = 1073741840.
Proof. unfold len, third_chunk. rewrite repeat_length. lia. Qed.

(** The sizes of the 32-bit run, for chunks of 2^30 - 16, 2^30 and
    2^30 + 16 bytes. *)
Section LargeChunks.

Variables c1 c2 c3 : list byte.

Hypothesis len_c1 : len c1 = 1073741808.

Hypothesis len_c2 : len c2 = 1073741824.

Hypothesis len_c3 : len c3 = 1073741840.

Lemma cap_holds_chunk : cap (holds_chunk c1) = 1073741824.
Proof.
  unfold cap, holds_chunk. cbn [buf]. unfold len. rewrite length_app.
  pose proof len_c1 as L1. pose proof (len_zeros 16 ltac:(lia)) as L2.
  unfold len in L1, L2. lia.
Qed.

Lemma holds_chunk_wf : wf Arch32 (holds_chunk c1).
Proof.
  pose proof cap_holds_chunk as Hc. pose proof max_int_32 as Hm.
  split; rewrite ?Hc, ?Hm; unfold holds_chunk;
    cbn [written readPos growSize]; rewrite ?len_c1; lia.
Qed.

Lemma third_chunk_overflows :
  len c3 <= max_int Arch32
  /\ max_int Arch32 < written (holds_chunk c1) + len c3.
Proof.
  unfold holds_chunk. cbn [written]. rewrite len_c1, len_c3, max_int_32. lia.
Qed.

Lemma second_chunk_wraps :
  cap (holds_chunk c1) - written (holds_chunk c1) < len c2
  /\ written (holds_chunk c1) + len c2 <= max_int Arch32
  /\ max_int Arch32 < grow_target (holds_chunk c1) (len c2).
Proof.
  rewrite cap_holds_chunk. unfold grow_target, holds_chunk.
  cbn [written growSize]. rewrite len_c1, len_c2, max_int_32.
  split; [lia|]. split; [lia|reflexivity].
Qed.

End LargeChunks.

(** ** Writing and reading *)

(** X1: a write whose capacity computation stays in range returns
    [len p] and no error, puts [p] behind the unread bytes and keeps the
    invariant and the quantum; the capacity never shrinks. When [p] fits in
    the free cells nothing moves (same capacity, same read position);
    otherwise the content is moved to the front of the larger array. *)
Theorem Write_appends (a : arch) (r : RingBuffer) (p : list byte) :
  wf a r -> grow_in_range a r (len p) ->
  exists r',
    Write a p r = Ret ((len p, None), r')
    /\ wf a r'
    /\ unread r' = unread r ++ p
    /\ written r' = written r + len p
    /\ growSize r' = growSize r
    /\ cap r <= cap r'
    /\ (len p <= cap r - written r ->
        cap r' = cap r /\ readPos r' = readPos r)
    /\ (cap r - written r < len p -> readPos r' = 0).
Proof.
  intros Hwf Hin. pose proof Hwf as [Hc Hw Hr Hg].
  destruct p as [|x p].
  - exists r. rewrite (Write_empty a), app_nil_r. change (len []) with 0.
    repeat split; try assumption; lia.
  - set (q := x :: p) in *.
    assert (Hq : 0 < len q) by (unfold len, q; cbn [length]; lia).
    destruct (Write_wf a r q Hwf Hq Hin)
      as (r' & HW & Hwf' & Hu & Hw' & Hg' & Hc' & Hr').
    pose proof (grow_target_bounds r (len q) ltac:(lia)) as Hb.
    exists r'.
    destruct (Z.leb_spec (len q) (cap r - written r)) as [L|L];
      repeat split; try assumption; try apply Hwf'; lia.
Qed.

Lemma Write_appends_witness :
  (wf Arch64 wrapped16 /\ grow_in_range Arch64 wrapped16 (len (repeat x01 10)))
  /\ exists r',
       Write Arch64 (repeat x01 10) wrapped16
       = Ret ((len (repeat x01 10), None), r')
       /\ wf Arch64 r'
       /\ unread r' = unread wrapped16 ++ repeat x01 10
       /\ written r' = written wrapped16 + len (repeat x01 10)
       /\ growSize r' = growSize wrapped16
       /\ cap wrapped16 <= cap r'
       /\ (len (repeat x01 10) <= cap wrapped16 - written wrapped16 ->
           cap r' = cap wrapped16 /\ readPos r' = readPos wrapped16)
       /\ (cap wrapped16 - written wrapped16 < len (repeat x01 10) ->
           readPos r' = 0).
Proof.
  split.
  - split; [by_evaluation|]. right. by_evaluation.
  - apply (Write_appends Arch64 wrapped16 (repeat x01 10)).
    + by_evaluation.
    + right. by_evaluation.
Defined.

(** X2: on a well-formed buffer [Read] returns [min (len p) written]
    bytes, the first unread ones in order, exactly as [Peek] shows them,
    with [io.EOF] only for a non-empty destination and an empty buffer; it
    removes these bytes from the content, advances the read position modulo
    the capacity and keeps the storage, the quantum and the invariant. *)
Theorem Read_takes_front (a : arch) (r : RingBuffer) (p : list byte) :
  wf a r ->
  let n := Z.min (len p) (written r) in
  let err := if (0 <? len p) && (written r =? 0) then Some EOF else None in
  exists p' r',
    Read a p r = Ret ((p', n, err), r')
    /\ Peek a p r = Ret ((p', n, err), r)
    /\ length p' = length p
    /\ firstn (Z.to_nat n) p' = firstn (Z.to_nat n) (unread r)
    /\ unread r' = skipn (Z.to_nat n) (unread r)
    /\ wf a r'
    /\ buf r' = buf r
    /\ growSize r' = growSize r
    /\ written r' = written r - n
    /\ readPos r' = (readPos r + n) mod cap r.
Proof.
  intros Hwf n err. pose proof Hwf as [Hc Hw Hr Hg].
  pose proof (len_nonneg p) as Hp.
  assert (Hn : 0 <= n <= written r) by (subst n; lia).
  destruct (peek_wf a r p Hwf) as (p' & Hpk & Hlen & Hpre).
  fold n in Hpk, Hpre. unfold peek_err in Hpk. fold err in Hpk.
  exists p', (advance r n).
  split.
  { unfold Read. erewrite bind_ret by exact Hpk. cbv beta iota.
    destruct err eqn:E.
    - subst err.
      destruct ((0 <? len p) && (written r =? 0)) eqn:E0; [|discriminate].
      apply andb_true_iff in E0 as [_ E0]. apply Z.eqb_eq in E0.
      replace n with 0 by (subst n; lia).
      now rewrite (advance_0 a) by assumption.
    - erewrite bind_ret by (apply advanceReadPos_wf; assumption).
      reflexivity. }
  split; [exact Hpk|]. split; [exact Hlen|]. split; [exact Hpre|].
  split; [now apply (unread_advance a)|].
  split; [now apply advance_wf|].
  split; [reflexivity|]. split; [reflexivity|]. split; [reflexivity|].
  now apply (readPos_advance a).
Qed.

Lemma Read_takes_front_witness :
  wf Arch64 wrapped16
  /\ exists p' r',
       Read Arch64 (repeat x00 6) wrapped16 = Ret ((p', 6, None), r')
       /\ Peek Arch64 (repeat x00 6) wrapped16 = Ret ((p', 6, None), wrapped16)
       /\ length p' = length (repeat x00 6)
       /\ firstn (Z.to_nat 6) p' = firstn (Z.to_nat 6) (unread wrapped16)
       /\ unread r' = skipn (Z.to_nat 6) (unread wrapped16)
       /\ wf Arch64 r'
       /\ buf r' = buf wrapped16
       /\ growSize r' = growSize wrapped16
       /\ written r' = written wrapped16 - 6
       /\ readPos r' = (readPos wrapped16 + 6) mod cap wrapped16.
Proof.
  split.
  - by_evaluation.
  - apply (Read_takes_front Arch64 wrapped16 (repeat x00 6)). by_evaluation.
Defined.



(** X4: writing [p] into an empty buffer and reading into a
    destination of the same length hands back exactly [p], with count
    [len p] and no error, and leaves the buffer empty. *)
Theorem Write_Read_round_trip (a : arch) (r : RingBuffer) (p d : list byte) :
  wf a r -> written r = 0 -> 0 < len p -> grow_in_range a r (len p) ->
  length d = length p ->
  exists r1 r2,
    Write a p r = Ret ((len p, None), r1)
    /\ Read a d r1 = Ret ((p, len p, None), r2)
    /\ wf a r2
    /\ written r2 = 0.
Proof.
  intros Hwf H0 Hp Hin Hd.
  destruct (Write_any a r p Hwf Hin) as (r1 & HW & Hwf1 & Hu & Hw1 & _).
  destruct (Read_wf a r1 d Hwf1) as (d' & HR & Hl & Hpre).
  assert (Hld : len d = len p) by (unfold len; now rewrite Hd).
  assert (E0 : unread r = []) by (unfold unread; now rewrite H0).
  rewrite E0 in Hu. cbn [app] in Hu.
  rewrite Hw1, H0, Hld in *.
  replace (Z.min (len p) (0 + len p)) with (len p) in * by lia.
  assert (Ed : d' = p).
  { rewrite Hu in Hpre.
    rewrite !firstn_all2 in Hpre by (unfold len in *; lia). exact Hpre. }
  subst d'.
  assert (Ee : peek_err r1 d = None).
  { unfold peek_err. rewrite Hw1.
    replace (0 + len p =? 0) with false by (symmetry; apply Z.eqb_neq; lia).
    now rewrite andb_false_r. }
  rewrite Ee in HR.
  exists r1, (advance r1 (len p)). split; [exact HW|]. split; [exact HR|].
  split; [apply advance_wf; [assumption|lia]|].
  unfold advance. cbn [written]. lia.
Qed.

Lemma Write_Read_round_trip_witness :
  (wf Arch64 fresh16 /\ written fresh16 = 0 /\ 0 < len (repeat x01 20)
   /\ grow_in_range Arch64 fresh16 (len (repeat x01 20))
   /\ length (repeat x00 20) = length (repeat x01 20))
  /\ exists r1 r2,
       Write Arch64 (repeat x01 20) fresh16
       = Ret ((len (repeat x01 20), None), r1)
       /\ Read Arch64 (repeat x00 20) r1
          = Ret ((repeat x01 20, len (repeat x01 20), None), r2)
       /\ wf Arch64 r2
       /\ written r2 = 0.
Proof.
  split.
  - split; [by_evaluation|]. split; [reflexivity|]. split; [reflexivity|].
    split; [right; by_evaluation|reflexivity].
  - apply (Write_Read_round_trip Arch64 fresh16 (repeat x01 20) (repeat x00 20)).
    + by_evaluation.
    + reflexivity.
    + reflexivity.
    + right. by_evaluation.
    + reflexivity.
Defined.

(** X5: any sequence of [Write], [Read] and [Peek] calls on a
    well-formed buffer returns what the same calls return on a plain queue
    of bytes that starts as the unread content, and ends with that queue as
    its content, as long as the sizes stay away from the largest [int]:
    [cap + 2 * (written + bytes written) + growSize <= max_int]. The
    invariant holds at the end, the quantum is kept and the capacity has
    not shrunk and is at most the larger of the capacity at the start and
    [written + bytes written + growSize]. *)
Theorem calls_refine_queue (a : arch) (cs : list call) (r : RingBuffer) :
  wf a r ->
  cap r + 2 * (written r + bytes_written cs) + growSize r <= max_int a ->
  exists r',
    run_calls a cs r = Ret (fst (queue_calls cs (unread r)), r')
    /\ wf a r'
    /\ unread r' = snd (queue_calls cs (unread r))
    /\ cap r <= cap r'
           <= Z.max (cap r) (written r + bytes_written cs + growSize r)
    /\ growSize r' = growSize r.
Proof.
  intros Hwf Hm. pose proof Hwf as [Hc Hw Hr Hg].
  pose proof (bytes_written_nonneg cs).
  apply (run_calls_queue a cs r
           (Z.max (cap r) (written r + bytes_written cs + growSize r))
           (written r + bytes_written cs)); try assumption; lia.
Qed.

Lemma calls_refine_queue_witness :
  (wf Arch64 wrapped16
   /\ cap wrapped16
      + 2 * (written wrapped16
             + bytes_written [CallWrite hello; CallRead (zeros 10);
                              CallWrite (repeat x01 20); CallPeek (zeros 4);
                              CallRead (zeros 30); CallRead (zeros 1)])
      + growSize wrapped16 <= max_int Arch64)
  /\ exists r',
       run_calls Arch64 [CallWrite hello; CallRead (zeros 10);
                         CallWrite (repeat x01 20); CallPeek (zeros 4);
                         CallRead (zeros 30); CallRead (zeros 1)] wrapped16
       = Ret (fst (queue_calls [CallWrite hello; CallRead (zeros 10);
                                CallWrite (repeat x01 20); CallPeek (zeros 4);
                                CallRead (zeros 30); CallRead (zeros 1)]
                     (unread wrapped16)), r')
       /\ wf Arch64 r'
       /\ unread r'
          = snd (queue_calls [CallWrite hello; CallRead (zeros 10);
                              CallWrite (repeat x01 20); CallPeek (zeros 4);
                              CallRead (zeros 30); CallRead (zeros 1)]
                   (unread wrapped16))
       /\ cap wrapped16 <= cap r'
              <= Z.max (cap wrapped16)
                   (written wrapped16
                    + bytes_written [CallWrite hello; CallRead (zeros 10);
                                     CallWrite (repeat x01 20);
                                     CallPeek (zeros 4); CallRead (zeros 30);
                                     CallRead (zeros 1)]
                    + growSize wrapped16)
       /\ growSize r' = growSize wrapped16.
Proof.
  split.
  - by_evaluation.
  - apply (calls_refine_queue Arch64
             [CallWrite hello; CallRead (zeros 10);
              CallWrite (repeat x01 20); CallPeek (zeros 4);
              CallRead (zeros 30); CallRead (zeros 1)] wrapped16);
      by_evaluation.
Defined.

(** X6: from [New], whatever the requested size: a sequence of
    [Write], [Read] and [Peek] calls that writes fewer than about half of
    the largest [int] bytes behaves as the same calls on a queue of bytes
    that starts empty, and leaves a well-formed buffer holding that
    queue. *)
Theorem calls_after_New_refine_queue (a : arch) (hint : Z) (cs : list call) :
  2 * bytes_written cs + 1048576 <= max_int a ->
  exists r0 r',
    New a hint = Ret r0
    /\ run_calls a cs r0 = Ret (fst (queue_calls cs []), r')
    /\ wf a r'
    /\ unread r' = snd (queue_calls cs []).
Proof.
  intros Hm.
  pose proof (New_value a hint) as HN.
  pose proof (New_wf a hint _ HN) as Hwf.
  pose proof (normalized_pow2 hint) as (k & Hk & Ek).
  assert (Hn : 0 < normalized hint <= 1048576).
  { rewrite Ek. split; [apply Z.pow_pos_nonneg; lia|].
    change 1048576 with (2 ^ 20). apply Z.pow_le_mono_r; lia. }
  set (r0 := {| buf := repeat x00 (Z.to_nat (normalized hint));
                growSize := normalized hint; readPos := 0; written := 0 |})
    in *.
  assert (Hcap : cap r0 = normalized hint)
    by (unfold cap, len, r0; cbn [buf]; rewrite repeat_length; lia).
  pose proof (bytes_written_nonneg cs) as Hcs.
  destruct (run_calls_queue a cs r0
              (bytes_written cs + normalized hint) (bytes_written cs) Hwf)
    as (r' & HR & Hwf' & Hu & _);
    try (rewrite ?Hcap; cbn [written growSize r0]; lia).
  change (unread r0) with (@nil byte) in *.
  exists r0, r'. split; [exact HN|].
  split; [exact HR|]. split; [exact Hwf'|exact Hu].
Qed.

Lemma calls_after_New_refine_queue_witness :
  2 * bytes_written [CallRead (zeros 3); CallWrite hello; CallWrite hello;
                     CallRead (zeros 5); CallWrite (repeat x01 40);
                     CallRead (zeros 64)] + 1048576 <= max_int Arch32
  /\ exists r0 r',
       New Arch32 32 = Ret r0
       /\ run_calls Arch32 [CallRead (zeros 3); CallWrite hello;
                            CallWrite hello; CallRead (zeros 5);
                            CallWrite (repeat x01 40); CallRead (zeros 64)] r0
          = Ret (fst (queue_calls [CallRead (zeros 3); CallWrite hello;
                                   CallWrite hello; CallRead (zeros 5);
                                   CallWrite (repeat x01 40);
                                   CallRead (zeros 64)] []), r')
       /\ wf Arch32 r'
       /\ unread r'
          = snd (queue_calls [CallRead (zeros 3); CallWrite hello;
                              CallWrite hello; CallRead (zeros 5);
                              CallWrite (repeat x01 40);
                              CallRead (zeros 64)] []).
Proof.
  split.
  - by_evaluation.
  - apply (calls_after_New_refine_queue Arch32 32
             [CallRead (zeros 3); CallWrite hello; CallWrite hello;
              CallRead (zeros 5); CallWrite (repeat x01 40);
              CallRead (zeros 64)]).
    by_evaluation.
Defined.

(** X7: [Find] leaves the buffer as it is and returns -1 exactly
    when the byte is not among the unread bytes; otherwise it returns the
    position, counted from the read position, of the first unread byte
    equal to it. *)
Theorem Find_first_occurrence (a : arch) (r : RingBuffer) (b : byte) :
  wf a r ->
  exists i,
    Find a b r = Ret (i, r)
    /\ ((i = -1 /\ ~ In b (unread r))
        \/ (0 <= i < written r
            /\ nth_error (unread r) (Z.to_nat i) = Some b
            /\ forall j, 0 <= j < i ->
                 nth_error (unread r) (Z.to_nat j) <> Some b)).
Proof.
  intros Hwf. exists (find_index b (unread r) 0).
  split; [now apply Find_wf|].
  destruct (find_index_first b (unread r) 0) as [H|(k & Hk & Hn & Hj)].
  - left. exact H.
  - right. rewrite Hk.
    assert (Hlt : (k < length (unread r))%nat)
      by (apply nth_error_Some; rewrite Hn; discriminate).
    pose proof (length_unread a r Hwf) as Hl. unfold len in Hl.
    replace (Z.to_nat (0 + Z.of_nat k)) with k by lia.
    split; [lia|]. split; [exact Hn|].
    intros j Hjk. apply Hj. lia.
Qed.

Lemma Find_first_occurrence_witness :
  wf Arch64 wrapped16
  /\ exists i,
       Find Arch64 x66 wrapped16 = Ret (i, wrapped16)
       /\ ((i = -1 /\ ~ In x66 (unread wrapped16))
           \/ (0 <= i < written wrapped16
               /\ nth_error (unread wrapped16) (Z.to_nat i) = Some x66
               /\ forall j, 0 <= j < i ->
                    nth_error (unread wrapped16) (Z.to_nat j) <> Some x66)).
Proof.
  split.
  - by_evaluation.
  - apply (Find_first_occurrence Arch64 wrapped16 x66). by_evaluation.
Defined.

(** X8: [Scan] calls the visitor on the unread bytes in order, wrapped
    around or not, with the indices 0, 1, 2, ... counted from the read
    position; it stops after the first call that returns [true], panics
    only if the visitor does, and leaves the buffer as it is. *)
Theorem Scan_visits_unread_in_order (a : arch) (S : Type)
    (fn : byte -> Z -> S -> outcome (bool * S)) (s : S) (r : RingBuffer) :
  wf a r ->
  Scan a fn s r
  = match scan_list fn (unread r) 0 s with
    | Ret (_, s') => Ret (s', r)
    | Panic => Panic
    end.
Proof.
  intros Hwf. rewrite Scan_wf by assumption.
  destruct (scan_list fn (unread r) 0 s) as [[c s']|]; reflexivity.
Qed.

Lemma Scan_visits_unread_in_order_witness :
  wf Arch64 wrapped16
  /\ Scan Arch64 (fun elem idx s => Ret (Byte.eqb elem x66, s ++ [(idx, elem)]))
       [] wrapped16
     = match scan_list
               (fun elem idx s => Ret (Byte.eqb elem x66, s ++ [(idx, elem)]))
               (unread wrapped16) 0 [] with
       | Ret (_, s') => Ret (s', wrapped16)
       | Panic => Panic
       end.
Proof.
  split.
  - by_evaluation.
  - apply (Scan_visits_unread_in_order Arch64 (list (Z * byte))
             (fun elem idx s => Ret (Byte.eqb elem x66, s ++ [(idx, elem)]))
             [] wrapped16).
    by_evaluation.
Defined.

(** X9: what [FindBytes] reports is there: it leaves the buffer as
    it is and returns -1 or a position [i] at which the unread content
    holds the whole target, [i + len b <= written]. *)
Theorem FindBytes_reports_occurrence (a : arch) (r : RingBuffer)
    (b : list byte) :
  wf a r -> len b <= max_int a ->
  exists i,
    FindBytes a b r = Ret (i, r)
    /\ (i = -1
        \/ (0 <= i /\ i + len b <= written r
            /\ firstn (length b) (skipn (Z.to_nat i) (unread r)) = b)).
Proof.
  intros Hwf Hb. exists (find_sequence b (unread r)).
  split; [now apply FindBytes_wf|].
  destruct (find_sequence_occurrence b (unread r)) as [H|(k & Hk & Hl & Ho)].
  - left. exact H.
  - right. rewrite Hk. rewrite Nat2Z.id.
    pose proof (length_unread a r Hwf) as Hlen. unfold len in *.
    split; [lia|]. split; [lia|exact Ho].
Qed.

Lemma FindBytes_reports_occurrence_witness :
  (wf Arch64 wrapped16 /\ len [x64; x65; x66] <= max_int Arch64)
  /\ exists i,
       FindBytes Arch64 [x64; x65; x66] wrapped16 = Ret (i, wrapped16)
       /\ (i = -1
           \/ (0 <= i /\ i + len [x64; x65; x66] <= written wrapped16
               /\ firstn (length [x64; x65; x66])
                    (skipn (Z.to_nat i) (unread wrapped16))
                  = [x64; x65; x66])).
Proof.
  split.
  - by_evaluation.
  - apply (FindBytes_reports_occurrence Arch64 wrapped16 [x64; x65; x66]);
      by_evaluation.
Defined.

(** X10: [FindBytes] finds the target where it first starts, when the
    first byte of the target does not occur before that place: it returns
    the position of this occurrence and leaves the buffer as it is. *)
Theorem FindBytes_finds_unpreceded (a : arch) (r : RingBuffer) (x : byte)
    (t pre rest : list byte) :
  wf a r -> len (x :: t) <= max_int a ->
  unread r = pre ++ (x :: t) ++ rest -> ~ In x pre ->
  FindBytes a (x :: t) r = Ret (len pre, r).
Proof.
  intros Hwf Hb Hu Hn.
  rewrite FindBytes_wf, Hu by assumption.
  now rewrite find_sequence_unpreceded.
Qed.

Lemma FindBytes_finds_unpreceded_witness :
  (wf Arch64 wrapped16
   /\ len [x64; x65; x66] <= max_int Arch64
   /\ unread wrapped16 = [x61; x62; x63] ++ [x64; x65; x66] ++ [x67; x68]
   /\ ~ In x64 [x61; x62; x63])
  /\ FindBytes Arch64 [x64; x65; x66] wrapped16
     = Ret (len [x61; x62; x63], wrapped16).
Proof.
  assert (Hn : ~ In x64 [x61; x62; x63])
    by (intros [H|[H|[H|[]]]]; discriminate).
  split.
  - split; [by_evaluation|]. split; [by_evaluation|].
    split; [reflexivity|exact Hn].
  - apply (FindBytes_finds_unpreceded Arch64 wrapped16 x64 [x65; x66]
             [x61; x62; x63] [x67; x68]).
    + by_evaluation.
    + by_evaluation.
    + reflexivity.
    + exact Hn.
Defined.

(** X11: for a target of one byte [FindBytes] returns what [Find]
    returns for that byte. *)
Theorem FindBytes_single_byte (a : arch) (r : RingBuffer) (b : byte) :
  wf a r -> FindBytes a [b] r = Find a b r.
Proof.
  intros Hwf. pose proof (max_int_lower a).
  rewrite FindBytes_wf, Find_wf by (assumption || (change (len [b]) with 1; lia)).
  unfold find_sequence. now rewrite stream_match_single.
Qed.

Lemma FindBytes_single_byte_witness :
  wf Arch64 wrapped16
  /\ FindBytes Arch64 [x66] wrapped16 = Find Arch64 x66 wrapped16.
Proof.
  split.
  - by_evaluation.
  - apply (FindBytes_single_byte Arch64 wrapped16 x66). by_evaluation.
Defined.

(** X12: [Len] returns the number of unread bytes and leaves the
    buffer as it is. *)
Theorem Len_counts_unread (a : arch) (r : RingBuffer) :
  wf a r -> Len r = Ret (len (unread r), r).
Proof.
  intros Hwf. rewrite (length_unread a) by assumption. reflexivity.
Qed.

Lemma Len_counts_unread_witness :
  wf Arch64 wrapped16
  /\ Len wrapped16 = Ret (len (unread wrapped16), wrapped16).
Proof.
  split.
  - by_evaluation.
  - apply (Len_counts_unread Arch64 wrapped16). by_evaluation.
Defined.

(** ** The edges of the capacity computation, and the helpers *)

(** X13: when [written + len p] is not representable,
    [ensureCapacity] returns the overflow error and [Write] returns 0 with
    that error; the buffer is left as it was. *)
Theorem Write_rejects_count_overflow (a : arch) (r : RingBuffer)
    (p : list byte) :
  wf a r -> len p <= max_int a -> max_int a < written r + len p ->
  ensureCapacity a (len p) r = Ret (Some ErrBufferOverflow, r)
  /\ Write a p r = Ret ((0, Some ErrBufferOverflow), r).
Proof.
  intros Hwf Hp Ho.
  split; [now apply ensureCapacity_overflow|now apply Write_overflow_rejected].
Qed.

Lemma Write_rejects_count_overflow_witness :
  (wf Arch32 (holds_chunk first_chunk)
   /\ len third_chunk <= max_int Arch32
   /\ max_int Arch32 < written (holds_chunk first_chunk) + len third_chunk)
  /\ ensureCapacity Arch32 (len third_chunk) (holds_chunk first_chunk)
     = Ret (Some ErrBufferOverflow, holds_chunk first_chunk)
  /\ Write Arch32 third_chunk (holds_chunk first_chunk)
     = Ret ((0, Some ErrBufferOverflow), holds_chunk first_chunk).
Proof.
  pose proof (holds_chunk_wf first_chunk len_first_chunk) as Hwf.
  pose proof (third_chunk_overflows first_chunk third_chunk
                len_first_chunk len_third_chunk) as [H1 H2].
  split.
  - split; [exact Hwf|]. split; [exact H1|exact H2].
  - exact (Write_rejects_count_overflow Arch32 (holds_chunk first_chunk)
             third_chunk Hwf H1 H2).
Defined.

(** X14: on every target and wherever the content starts: when
    [written + len p] is representable but its round-up to the next
    multiple of the quantum is not, [Write] grows nothing, returns [len p]
    and no error, stores only the first [cap - written] bytes of [p] in the
    free cells and leaves [written] above the capacity. *)
Theorem Write_past_capacity (a : arch) (r : RingBuffer) (p : list byte) :
  wf a r -> cap r - written r < len p -> written r + len p <= max_int a ->
  max_int a < grow_target r (len p) ->
  exists r',
    Write a p r = Ret ((len p, None), r')
    /\ cap r' = cap r
    /\ readPos r' = readPos r
    /\ growSize r' = growSize r
    /\ written r' = written r + len p
    /\ cap r' < written r'
    /\ firstn (Z.to_nat (cap r))
         (skipn (Z.to_nat (readPos r)) (buf r') ++ buf r')
       = unread r ++ firstn (Z.to_nat (cap r - written r)) p.
Proof.
  intros Hwf Hn Hreq Ht.
  destruct (Write_wrapped_target_any a r p Hwf Hn Hreq Ht)
    as (b & HW & Hl & Hb).
  eexists. split; [exact HW|]. unfold cap, len in *.
  cbn [buf readPos growSize written].
  rewrite Hl in *. rewrite Nat2Z.id.
  repeat split; try lia. exact Hb.
Qed.

Lemma Write_past_capacity_witness :
  (wf Arch32 (holds_chunk first_chunk)
   /\ cap (holds_chunk first_chunk) - written (holds_chunk first_chunk)
      < len second_chunk
   /\ written (holds_chunk first_chunk) + len second_chunk <= max_int Arch32
   /\ max_int Arch32
      < grow_target (holds_chunk first_chunk) (len second_chunk))
  /\ exists r',
       Write Arch32 second_chunk (holds_chunk first_chunk)
       = Ret ((len second_chunk, None), r')
       /\ cap r' = cap (holds_chunk first_chunk)
       /\ readPos r' = readPos (holds_chunk first_chunk)
       /\ growSize r' = growSize (holds_chunk first_chunk)
       /\ written r' = written (holds_chunk first_chunk) + len second_chunk
       /\ cap r' < written r'
       /\ firstn (Z.to_nat (cap (holds_chunk first_chunk)))
            (skipn (Z.to_nat (readPos (holds_chunk first_chunk))) (buf r')
             ++ buf r')
          = unread (holds_chunk first_chunk)
            ++ firstn (Z.to_nat (cap (holds_chunk first_chunk)
                                 - written (holds_chunk first_chunk)))
                 second_chunk.
Proof.
  pose proof (holds_chunk_wf first_chunk len_first_chunk) as Hwf.
  pose proof (second_chunk_wraps first_chunk second_chunk
                len_first_chunk len_second_chunk) as (H1 & H2 & H3).
  split.
  - split; [exact Hwf|]. split; [exact H1|]. split; [exact H2|exact H3].
  - exact (Write_past_capacity Arch32 (holds_chunk first_chunk) second_chunk
             Hwf H1 H2 H3).
Defined.

(** X15: [readInfo] splits the content in two runs: the first
    starts at the read position, the second at offset 0 and is not empty
    only when the first reaches the end of the array; their lengths add up
    to [written] and together they are the unread bytes in order. *)
Theorem readInfo_spans (a : arch) (r : RingBuffer) :
  wf a r ->
  exists len1 len2,
    readInfo a r = Ret ((readPos r, len1, len2), r)
    /\ 0 <= len1 /\ 0 <= len2
    /\ len1 + len2 = written r
    /\ readPos r + len1 <= cap r
    /\ (0 < len2 -> readPos r + len1 = cap r /\ len2 <= readPos r)
    /\ unread r
       = firstn (Z.to_nat len1) (skipn (Z.to_nat (readPos r)) (buf r))
         ++ firstn (Z.to_nat len2) (buf r).
Proof.
  intros Hwf. pose proof Hwf as [Hc Hw Hr Hg].
  eexists _, _. split; [now apply readInfo_wf|].
  repeat split; try lia. now apply (unread_runs a).
Qed.

Lemma readInfo_spans_witness :
  wf Arch64 wrapped16
  /\ exists len1 len2,
       readInfo Arch64 wrapped16 = Ret ((readPos wrapped16, len1, len2), wrapped16)
       /\ 0 <= len1 /\ 0 <= len2
       /\ len1 + len2 = written wrapped16
       /\ readPos wrapped16 + len1 <= cap wrapped16
       /\ (0 < len2 -> readPos wrapped16 + len1 = cap wrapped16
                       /\ len2 <= readPos wrapped16)
       /\ unread wrapped16
          = firstn (Z.to_nat len1)
              (skipn (Z.to_nat (readPos wrapped16)) (buf wrapped16))
            ++ firstn (Z.to_nat len2) (buf wrapped16).
Proof.
  split.
  - by_evaluation.
  - apply (readInfo_spans Arch64 wrapped16). by_evaluation.
Defined.

(** X16: [writeInfo] splits the free cells in two runs whose
    lengths add up to [cap - written]: the first starts right after the
    content, at [(readPos + written) mod cap], the second at offset 0 and
    is not empty only when the first reaches the end of the array, and then
    it ends at the read position. *)
Theorem writeInfo_spans (a : arch) (r : RingBuffer) :
  wf a r ->
  exists ofs1 len1 len2,
    writeInfo a r = Ret ((ofs1, len1, len2), r)
    /\ 0 <= ofs1 /\ 0 <= len1 /\ 0 <= len2
    /\ len1 + len2 = cap r - written r
    /\ ofs1 + len1 <= cap r
    /\ (written r < cap r -> ofs1 = (readPos r + written r) mod cap r)
    /\ (0 < len2 -> ofs1 + len1 = cap r /\ len2 = readPos r).
Proof.
  intros Hwf. pose proof Hwf as [Hc Hw Hr Hg].
  pose proof (writeInfo_wf a r Hwf) as HI. cbv zeta in HI.
  eexists _, _, _. split; [exact HI|].
  destruct (Z.eqb_spec (written r) (cap r)) as [E|E]; [repeat split; lia|].
  pose proof (Z.mod_pos_bound (readPos r + written r) (cap r) ltac:(lia)) as Hm.
  destruct (Z.ltb_spec (readPos r + written r) (cap r)) as [L|L].
  - rewrite (Z.mod_small (readPos r + written r)) in * by lia.
    repeat split; lia.
  - assert (Em : (readPos r + written r) mod cap r
                 = readPos r + written r - cap r)
      by (symmetry; apply (Z.mod_unique _ _ 1); lia).
    repeat split; try lia.
Qed.

Lemma writeInfo_spans_witness :
  wf Arch64 wrapped16
  /\ exists ofs1 len1 len2,
       writeInfo Arch64 wrapped16 = Ret ((ofs1, len1, len2), wrapped16)
       /\ 0 <= ofs1 /\ 0 <= len1 /\ 0 <= len2
       /\ len1 + len2 = cap wrapped16 - written wrapped16
       /\ ofs1 + len1 <= cap wrapped16
       /\ (written wrapped16 < cap wrapped16 ->
           ofs1 = (readPos wrapped16 + written wrapped16) mod cap wrapped16)
       /\ (0 < len2 -> ofs1 + len1 = cap wrapped16
                       /\ len2 = readPos wrapped16).
Proof.
  split.
  - by_evaluation.
  - apply (writeInfo_spans Arch64 wrapped16). by_evaluation.
Defined.

(** X17: [growBuffer] never shrinks the storage: with a size that
    is not larger than the capacity it does nothing, and with a larger one
    it moves the unread bytes, in order, to the front of a zeroed array of
    that size and sets the read position to 0; content, count, quantum and
    invariant are kept. *)
Theorem growBuffer_keeps_content (a : arch) (r : RingBuffer) (newSize : Z) :
  wf a r -> newSize <= max_int a -> readPos r + written r <= max_int a ->
  exists r',
    growBuffer a newSize r = Ret (tt, r')
    /\ wf a r'
    /\ unread r' = unread r
    /\ written r' = written r
    /\ growSize r' = growSize r
    /\ cap r' = Z.max (cap r) newSize
    /\ (newSize <= cap r -> r' = r)
    /\ (cap r < newSize ->
        readPos r' = 0
        /\ buf r' = unread r ++ repeat x00 (Z.to_nat (newSize - written r))).
Proof.
  intros Hwf Hn He. pose proof Hwf as [Hc Hw Hr Hg].
  destruct (Z.leb_spec newSize (cap r)) as [L|L].
  - exists r. split.
    { unfold growBuffer. monad_simp.
      now replace (newSize >? len (buf r)) with false
        by (symmetry; rewrite Z.gtb_ltb; apply Z.ltb_ge; exact L). }
    repeat split; try assumption; try lia.
  - exists (grown r newSize). split; [now apply growBuffer_wf|].
    split; [apply grown_wf; [assumption|lia]|].
    split; [now apply (unread_grown a)|].
    rewrite (cap_grown a) by assumption.
    repeat split; try reflexivity; lia.
Qed.

Lemma growBuffer_keeps_content_witness :
  (wf Arch64 wrapped16 /\ 32 <= max_int Arch64
   /\ readPos wrapped16 + written wrapped16 <= max_int Arch64)
  /\ exists r',
       growBuffer Arch64 32 wrapped16 = Ret (tt, r')
       /\ wf Arch64 r'
       /\ unread r' = unread wrapped16
       /\ written r' = written wrapped16
       /\ growSize r' = growSize wrapped16
       /\ cap r' = Z.max (cap wrapped16) 32
       /\ (32 <= cap wrapped16 -> r' = wrapped16)
       /\ (cap wrapped16 < 32 ->
           readPos r' = 0
           /\ buf r' = unread wrapped16
                       ++ repeat x00 (Z.to_nat (32 - written wrapped16))).
Proof.
  split.
  - by_evaluation.
  - apply (growBuffer_keeps_content Arch64 wrapped16 32); by_evaluation.
Defined.

(** X18: when the capacity computation stays in range,
    [ensureCapacity] returns no error and leaves at least [n] free cells:
    it does nothing when they are there already, and grows the storage to
    [grow_target] otherwise; content, count, quantum and invariant are
    kept. *)
Theorem ensureCapacity_makes_room (a : arch) (r : RingBuffer) (n : Z) :
  wf a r -> grow_in_range a r n ->
  exists r',
    ensureCapacity a n r = Ret (None, r')
    /\ wf a r'
    /\ n <= cap r' - written r'
    /\ unread r' = unread r
    /\ written r' = written r
    /\ growSize r' = growSize r
    /\ (n <= cap r - written r -> r' = r)
    /\ (cap r - written r < n ->
        cap r' = grow_target r n /\ readPos r' = 0).
Proof.
  intros Hwf Hin. pose proof Hwf as [Hc Hw Hr Hg].
  destruct (Z.leb_spec n (cap r - written r)) as [L|L].
  - exists r. split; [now apply ensureCapacity_room|].
    repeat split; try assumption; try lia.
  - destruct Hin as [Hin|[He Ht]]; [lia|].
    pose proof (grow_target_bounds r n ltac:(lia)) as Hb.
    assert (Hcap : cap r < grow_target r n) by lia.
    exists (grown r (grow_target r n)).
    split; [now apply ensureCapacity_grow|].
    split; [apply grown_wf; [assumption|lia]|].
    rewrite (cap_grown a) by assumption.
    split; [cbn [written grown]; lia|].
    split; [now apply (unread_grown a)|].
    repeat split; try reflexivity; lia.
Qed.

Lemma ensureCapacity_makes_room_witness :
  (wf Arch64 wrapped16 /\ grow_in_range Arch64 wrapped16 10)
  /\ exists r',
       ensureCapacity Arch64 10 wrapped16 = Ret (None, r')
       /\ wf Arch64 r'
       /\ 10 <= cap r' - written r'
       /\ unread r' = unread wrapped16
       /\ written r' = written wrapped16
       /\ growSize r' = growSize wrapped16
       /\ (10 <= cap wrapped16 - written wrapped16 -> r' = wrapped16)
       /\ (cap wrapped16 - written wrapped16 < 10 ->
           cap r' = grow_target wrapped16 10 /\ readPos r' = 0).
Proof.
  split.
  - split; [by_evaluation|]. right. by_evaluation.
  - apply (ensureCapacity_makes_room Arch64 wrapped16 10).
    + by_evaluation.
    + right. by_evaluation.
Defined.
